(** * ainedit: the [alice ain edit] command

    A shallow embedding of [src/ainedit/ainedit.c]: the version parser
    [parse_version] over checked 3-byte buffers, the bounded input queue
    [push_input], and the driver [command_ain_edit] with its external
    collaborators (container reader and writer, assembler, compiler,
    mergers, transcoder, project builder) taken as an interface. *)

From Stdlib Require Import ZArith Lia Ascii String.
From stdpp Require Import base list strings.

Local Open Scope Z_scope.

(** ** Outcome of a piece of C code that can run into undefined behaviour *)

Inductive exec (A : Type) : Type :=
  | Undefined : exec A
  | Returns (a : A) : exec A.
Arguments Undefined {A}.
Arguments Returns {A} a.

Definition exec_bind {A B} (m : exec A) (k : A → exec B) : exec B :=
  match m with
  | Undefined => Undefined
  | Returns a => k a
  end.

Notation "x ←ᵤ m ;; k" := (exec_bind m (fun x => k))
  (at level 100, m at next level, right associativity, only parsing).

(** ** The C library functions used by [parse_version]

    A [const char *] is modelled by the characters stored from the pointer
    on; the end of the list reads as the terminator, and a NUL inside the
    list terminates the string early, as it does in C. *)

Module Libc.

Definition NUL : ascii := "000"%char.

Fixpoint strlen (s : list ascii) : nat :=
  match s with
  | [] => 0%nat
  | c :: r => if decide (c = NUL) then 0%nat else S (strlen r)
  end.

(** [strchr s c]: offset of the first [c] in the string, the terminator
    included; [None] is the NULL pointer. *)
Fixpoint strchr (s : list ascii) (c : ascii) : option nat :=
  match s with
  | [] => if decide (c = NUL) then Some 0%nat else None
  | x :: r =>
      if decide (x = c) then Some 0%nat
      else if decide (x = NUL) then None
      else S <$> strchr r c
  end.

(** A local [char buf[n]]: [n] cells, indeterminate until written. *)
Abbreviation buffer := (list (option ascii)).

Definition alloca (n : nat) : buffer := replicate n None.

(** [buf[i] = c]; a write outside the array is undefined. *)
Definition store (b : buffer) (i : nat) (c : ascii) : exec buffer :=
  if decide (i < length b)%nat then Returns (<[i := Some c]> b) else Undefined.

(** [strcpy(dst + i, src)]: the characters of [src] and its terminator. *)
Fixpoint strcpy_at (dst : buffer) (i : nat) (src : list ascii) : exec buffer :=
  match src with
  | [] => store dst i NUL
  | c :: r =>
      if decide (c = NUL) then store dst i NUL
      else d ←ᵤ store dst i c ;; strcpy_at d (S i) r
  end.

Definition strcpy (dst : buffer) (src : list ascii) : exec buffer :=
  strcpy_at dst 0 src.

(** [strncpy(dst + i, src, n)]: exactly [n] bytes are written, the tail
    padded with NUL when [src] is shorter; no terminator is added when
    [src] has [n] characters or more. *)
Fixpoint strncpy_at (dst : buffer) (i : nat) (src : list ascii) (n : nat)
  : exec buffer :=
  match n with
  | O => Returns dst
  | S n' =>
      match src with
      | [] => d ←ᵤ store dst i NUL ;; strncpy_at d (S i) [] n'
      | c :: r =>
          if decide (c = NUL)
          then d ←ᵤ store dst i NUL ;; strncpy_at d (S i) [] n'
          else d ←ᵤ store dst i c ;; strncpy_at d (S i) r n'
      end
  end.

Definition strncpy (dst : buffer) (src : list ascii) (n : nat) : exec buffer :=
  strncpy_at dst 0 src n.

(** Reading the string held by a buffer: running off the array or into an
    indeterminate cell before the terminator is undefined. *)
Fixpoint load_string (b : buffer) : exec (list ascii) :=
  match b with
  | [] => Undefined
  | None :: _ => Undefined
  | Some c :: r =>
      if decide (c = NUL) then Returns []
      else s ←ᵤ load_string r ;; Returns (c :: s)
  end.

Definition isspace (c : ascii) : bool :=
  let n := nat_of_ascii c in
  ((n =? 32) || ((9 <=? n) && (n <=? 13)))%nat.

Definition isdigit (c : ascii) : bool :=
  let n := nat_of_ascii c in ((48 <=? n) && (n <=? 57))%nat.

Definition digit_value (c : ascii) : Z := Z.of_nat (nat_of_ascii c - 48).

Fixpoint skip_spaces (s : list ascii) : list ascii :=
  match s with
  | c :: r => if isspace c then skip_spaces r else s
  | [] => []
  end.

Fixpoint atoi_digits (acc : Z) (s : list ascii) : Z :=
  match s with
  | c :: r => if isdigit c then atoi_digits (10 * acc + digit_value c) r else acc
  | [] => acc
  end.

(** [atoi] as ISO C gives it (strtol in base 10): leading white space, an
    optional sign, then the longest run of digits; 0 when there is none.
    The value is not wrapped to [int]: [parse_version] only passes strings
    of at most two characters. *)
Definition atoi (s : list ascii) : Z :=
  match skip_spaces s with
  | c :: r =>
      if decide (c = "-"%char) then - atoi_digits 0 r
      else if decide (c = "+"%char) then atoi_digits 0 r
      else atoi_digits 0 (c :: r)
  | [] => 0
  end.

Definition atoi_buf (b : buffer) : exec Z :=
  s ←ᵤ load_string b ;; Returns (atoi s).

End Libc.

Import Libc.

(** ** [parse_version] (ainedit.c, lines 45-69)

    [Returns None] is the C function returning [false], [Returns (Some
    (major, minor))] is [true] with both out-parameters written. *)

Definition parse_version (str : list ascii) : exec (option (Z * Z)) :=
  let major_str := alloca 3 in
  let minor_str := alloca 3 in
  match strchr str "."%char with
  | Some dot =>
      if decide (2 < dot)%nat then Returns None
      else if decide (2 < strlen (drop (S dot) str))%nat then Returns None
      else
        major_str ←ᵤ strncpy major_str str dot ;;
        major_str ←ᵤ store major_str dot NUL ;;
        minor_str ←ᵤ strcpy minor_str (drop (S dot) str) ;;
        major ←ᵤ atoi_buf major_str ;;
        minor ←ᵤ atoi_buf minor_str ;;
        Returns (Some (major, minor))
  | None =>
      if decide (2 < strlen str)%nat then Returns None
      else
        major_str ←ᵤ strcpy major_str str ;;
        minor_str ←ᵤ strcpy minor_str ["0"%char] ;;
        major ←ᵤ atoi_buf major_str ;;
        minor ←ᵤ atoi_buf minor_str ;;
        Returns (Some (major, minor))
  end.

Definition version_text (s : string) : list ascii := list_ascii_of_string s.

(** The characters of a string, terminator excluded. *)
Definition chars (s : list ascii) : list ascii := take (strlen s) s.

(** ** The external collaborators *)

(** Modelled from the spec: the container reader and writer, the
    assembler, the compiler, the two mergers, the transcoder, the
    member-function resolver and the project builder are called by
    ainedit.c but defined elsewhere; they are taken as an interface, with
    the contracts of the specification's external interfaces.  The image
    behind the [struct ain *] is threaded as a value.  A collaborator that
    reports an error does so by terminating the process: [None] or [false]
    below.  The resolver and the transcoder always return. *)

Class Collaborators := {
  ain : Type;
  (** the raw-mode bit of the assembler flags (ainedit.h) *)
  ASM_RAW : Z;
  ain_new : Z → Z → ain;
  (** [inl err] is the NULL result, with [*err] set *)
  ain_open : string → Z + ain;
  ain_strerror : Z → string;
  (** the second argument is the output encoding [conv_output_utf8] reads from *)
  ain_init_member_functions : ain → string → ain;
  (** from the current input encoding to the current output encoding *)
  ain_transcode : string → string → ain → ain;
  asm_assemble_jam : string → ain → Z → option ain;
  jaf_build : ain → list string → option ain;
  read_text : string → ain → option ain;
  read_declarations : string → ain → option ain;
  ain_write : string → ain → bool;
  pje_build : string → Z → Z → bool;
}.

(** ** Option codes (lines 32-43) and the short option letters *)

Definition LOPT_PROJECT : Z := 256.
Definition LOPT_CODE : Z := 257.
Definition LOPT_JAF : Z := 258.
Definition LOPT_JSON : Z := 259.
Definition LOPT_TEXT : Z := 260.
Definition LOPT_TRANSCODE : Z := 261.
Definition LOPT_OUTPUT : Z := 262.
Definition LOPT_RAW : Z := 263.
Definition LOPT_AIN_VERSION : Z := 264.
Definition LOPT_SILENT : Z := 265.

Definition chr (c : ascii) : Z := Z.of_nat (nat_of_ascii c).

(** [case 'x': case LOPT_X:] *)
Definition is_case (c : Z) (short : ascii) (long : Z) : bool :=
  (c =? chr short) || (c =? long).

(** ** The input queue (lines 71-84) *)

Inductive input_type : Type := IN_CODE | IN_JAF | IN_TEXT | IN_DECL.

Record input : Type := Input { type : input_type; filename : string }.

(** A slot of the zero-initialised static array: type 0 and a null file
    name, which is never read; the empty string stands for it. *)
Definition empty_slot : input := {| type := IN_CODE; filename := "" |}.

(** The locals of [command_ain_edit] that the option loop sets. *)
Record locals : Type := Locals {
  project_file : option string;
  output_file : option string;
  major_version : Z;
  minor_version : Z;
  transcode : bool;
  flags : Z;
}.

Definition locals0 : locals :=
  {| project_file := None; output_file := None;
     major_version := 4; minor_version := 0;
     transcode := false; flags := 0 |}.

Inductive fatal : Type :=
  | AliceError (msg : string)
  | UsageError (msg : string)
  | CollaboratorExit
  | UndefinedBehaviour.

Inductive result (A : Type) : Type :=
  | Done (a : A)
  | Fatal (e : fatal).
Arguments Done {A} a.
Arguments Fatal {A} e.

Section ainedit.
Context {C : Collaborators}.

(** What the run does that can be seen from outside, in order. *)
Inductive event : Type :=
  | EInitializeInstructions
  | EWarning (msg : string)
  | ENotice (msg : string)
  | EPjeBuild (project : string) (major minor : Z)
  | EAinNew (major minor : Z)
  | EAinOpen (path : string)
  | EInitMemberFunctions
  | ETranscode (from to : string)
  | EAssemble (file : string) (asm_flags : Z)
  | EJafBuild (file : string)
  | EReadText (file : string)
  | EReadDeclarations (file : string)
  | EAinWrite (path : string) (image : ain)
  | EAinFree.

(** The process state outside the function: the static queue, the
    encodings set through [set_input_encoding] and [set_output_encoding],
    [sys_silent], and the events so far. *)
Record globals : Type := Globals {
  inputs : list input;
  nr_inputs : Z;
  input_encoding : string;
  output_encoding : string;
  sys_silent : bool;
  log : list event;
}.

(** The state at process start: [inputs] has 256 slots. *)
Definition globals0 : globals :=
  {| inputs := replicate 256 empty_slot; nr_inputs := 0;
     input_encoding := ""; output_encoding := "";
     sys_silent := false; log := [] |}.

(** The first [nr_inputs] slots: the queued requests, oldest first. *)
Definition queue (g : globals) : list input :=
  take (Z.to_nat (nr_inputs g)) (inputs g).

(** *** State and error monad of the run *)

Definition M (A : Type) : Type := globals → globals * result A.

Definition ret {A} (a : A) : M A := λ g, (g, Done a).

Definition bind {A B} (m : M A) (k : A → M B) : M B := λ g,
  match m g with
  | (g', Done a) => k a g'
  | (g', Fatal e) => (g', Fatal e)
  end.

Definition abort {A} (e : fatal) : M A := λ g, (g, Fatal e).

(** The state after some more events. *)
Definition add_log (g : globals) (es : list event) : globals :=
  Globals (inputs g) (nr_inputs g) (input_encoding g) (output_encoding g)
          (sys_silent g) (log g ++ es).

Definition emit (e : event) : M unit := λ g, (add_log g [e], Done tt).

Definition when (b : bool) (m : M unit) : M unit := if b then m else ret tt.

(** Modelled from the spec: the diagnostics macros of alice.h and
    system4.h.  [ALICE_ERROR] and [USAGE_ERROR] print and terminate the run
    with a non-zero status, [WARNING] reports and goes on, [NOTICE] is a
    progress notice, suppressed by the silent flag. *)
Definition ALICE_ERROR {A} (msg : string) : M A := abort (AliceError msg).
Definition USAGE_ERROR {A} (msg : string) : M A := abort (UsageError msg).
Definition WARNING (msg : string) : M unit := emit (EWarning msg).
Definition NOTICE (msg : string) : M unit := λ g,
  if sys_silent g then (g, Done tt) else emit (ENotice msg) g.

Definition set_input_encoding (enc : string) : M unit := λ g,
  (Globals (inputs g) (nr_inputs g) enc (output_encoding g)
           (sys_silent g) (log g), Done tt).

Definition set_output_encoding (enc : string) : M unit := λ g,
  (Globals (inputs g) (nr_inputs g) (input_encoding g) enc
           (sys_silent g) (log g), Done tt).

Definition set_sys_silent (b : bool) : M unit := λ g,
  (Globals (inputs g) (nr_inputs g) (input_encoding g) (output_encoding g)
           b (log g), Done tt).

(** A call of a collaborator that either updates the image or exits. *)
Definition call {A} (e : event) (r : option A) : M A := λ g,
  match emit e g with
  | (g', _) =>
      match r with
      | Some a => (g', Done a)
      | None => (g', Fatal CollaboratorExit)
      end
  end.

End ainedit.

Notation "x ←ₘ m ;; k" := (bind m (fun x => k))
  (at level 100, m at next level, right associativity, only parsing).
Notation "m ;;ₘ k" := (bind m (fun _ => k))
  (at level 100, k at level 200, right associativity, only parsing).

Section command.
Context {C : Collaborators}.

(** *** [push_input] (lines 86-94) *)

Definition push_input (type : input_type) (filename : string) : M unit := λ g,
  if decide (nr_inputs g >= 256) then ALICE_ERROR "Too many inputs" g
  else
    let i := nr_inputs g in
    if decide (0 ≤ i < Z.of_nat (length (inputs g))) then
      (Globals (<[Z.to_nat i := {| type := type; filename := filename |}]> (inputs g))
               (i + 1) (input_encoding g) (output_encoding g)
               (sys_silent g) (log g), Done tt)
    else (g, Fatal UndefinedBehaviour).

(** *** The body of the option switch (lines 116-159) *)

Definition handle_option (c : Z) (optarg : string) (l : locals) : M locals :=
  if is_case c "p" LOPT_PROJECT then
    ret (Locals (Some optarg) (output_file l) (major_version l)
                (minor_version l) (transcode l) (flags l))
  else if is_case c "c" LOPT_CODE then
    push_input IN_CODE optarg ;;ₘ ret l
  else if c =? LOPT_JAF then
    push_input IN_JAF optarg ;;ₘ ret l
  else if is_case c "j" LOPT_JSON then
    push_input IN_DECL optarg ;;ₘ ret l
  else if is_case c "t" LOPT_TEXT then
    push_input IN_TEXT optarg ;;ₘ ret l
  else if c =? LOPT_TRANSCODE then
    set_input_encoding "CP932" ;;ₘ
    set_output_encoding optarg ;;ₘ
    ret (Locals (project_file l) (output_file l) (major_version l)
                (minor_version l) true (flags l))
  else if is_case c "o" LOPT_OUTPUT then
    ret (Locals (project_file l) (Some optarg) (major_version l)
                (minor_version l) (transcode l) (flags l))
  else if c =? LOPT_RAW then
    ret (Locals (project_file l) (output_file l) (major_version l)
                (minor_version l) (transcode l) (Z.lor (flags l) ASM_RAW))
  else if c =? LOPT_AIN_VERSION then
    match parse_version (version_text optarg) with
    | Undefined => abort UndefinedBehaviour
    | Returns None => ALICE_ERROR "Invalid AIN version (parse error)"
    | Returns (Some (major, minor)) =>
        if (major <? 4) || (major >? 14) then
          ALICE_ERROR "Invalid AIN version (4-14 supported)"
        else
          ret (Locals (project_file l) (output_file l) major minor
                      (transcode l) (flags l))
    end
  else if c =? LOPT_SILENT then
    set_sys_silent true ;;ₘ ret l
  else ret l.

(** The [while (1)] loop over what [alice_getopt] returns: the option
    codes with their arguments, up to the -1 that ends the list. *)
Fixpoint option_loop (opts : list (Z * string)) (l : locals) : M locals :=
  match opts with
  | [] => ret l
  | (c, optarg) :: rest => l' ←ₘ handle_option c optarg l ;; option_loop rest l'
  end.

(** Lines 98-160: start-up and the option loop. *)
Definition read_options (opts : list (Z * string)) : M locals :=
  emit EInitializeInstructions ;;ₘ
  set_input_encoding "UTF-8" ;;ₘ
  set_output_encoding "CP932" ;;ₘ
  option_loop opts locals0.

(** Lines 98-166: [args] is what is left of [argv] after the options. *)
Definition command_line (opts : list (Z * string)) (args : list string)
  : M locals :=
  l ←ₘ read_options opts ;;
  (if decide (Z.of_nat (length args) > 1)
   then USAGE_ERROR "Too many arguments." else ret tt) ;;ₘ
  ret l.

(** Lines 168-175. *)
Definition project_mode (project : string) (l : locals) : M Z := λ g,
  (when (bool_decide (nr_inputs g > 0))
     (WARNING "Input files specified on the command line are ignored in --project mode") ;;ₘ
   emit (EPjeBuild project (major_version l) (minor_version l)) ;;ₘ
   (if pje_build project (major_version l) (minor_version l)
    then ret 0 else abort CollaboratorExit)) g.

(** Lines 181-187. *)
Definition open_container (l : locals) (args : list string) : M ain :=
  match args with
  | [] =>
      emit (EAinNew (major_version l) (minor_version l)) ;;ₘ
      ret (ain_new (major_version l) (minor_version l))
  | path :: _ =>
      emit (EAinOpen path) ;;ₘ
      match ain_open path with
      | inr image => ret image
      | inl err =>
          ALICE_ERROR ("Failed to open ain file: " +:+ ain_strerror err)
      end
  end.

(** One turn of the switch at lines 200-213. *)
Definition dispatch (i : input) (asm_flags : Z) (image : ain) : M ain :=
  match type i with
  | IN_CODE =>
      call (EAssemble (filename i) asm_flags)
           (asm_assemble_jam (filename i) image asm_flags)
  | IN_JAF =>
      call (EJafBuild (filename i)) (jaf_build image [filename i])
  | IN_TEXT =>
      call (EReadText (filename i)) (read_text (filename i) image)
  | IN_DECL =>
      call (EReadDeclarations (filename i)) (read_declarations (filename i) image)
  end.

(** The [for] loop at lines 199-214 from index [i], [n] turns to go; a
    read outside [inputs] is undefined. *)
Fixpoint apply_inputs (n : nat) (i : nat) (asm_flags : Z) (image : ain) : M ain :=
  match n with
  | O => ret image
  | S n' => λ g,
      match inputs g !! i with
      | Some inp =>
          (image' ←ₘ dispatch inp asm_flags image ;;
           apply_inputs n' (S i) asm_flags image') g
      | None => (g, Fatal UndefinedBehaviour)
      end
  end.

(** The label [write_ain_file] (lines 216-220). *)
Definition write_ain_file (output : string) (image : ain) : M Z :=
  NOTICE "Writing AIN file..." ;;ₘ
  emit (EAinWrite output image) ;;ₘ
  (if ain_write output image then ret tt else abort CollaboratorExit) ;;ₘ
  emit EAinFree ;;ₘ
  ret 0.

(** Lines 177-179 and 188-220: what is done with the image in hand. *)
Definition edit_and_write (l : locals) (image : ain) : M Z := λ g,
  let output := default "out.ain" (output_file l) in
  (emit EInitMemberFunctions ;;ₘ
   let image := ain_init_member_functions image (output_encoding g) in
   if transcode l then
     when (bool_decide (nr_inputs g > 0))
       (WARNING "Input files specified on the command line are ignored in --transcode mode") ;;ₘ
     emit (ETranscode (input_encoding g) (output_encoding g)) ;;ₘ
     let image := ain_transcode (input_encoding g) (output_encoding g) image in
     write_ain_file output image
   else
     image ←ₘ apply_inputs (Z.to_nat (nr_inputs g)) 0 (flags l) image ;;
     write_ain_file output image) g.

(** *** [command_ain_edit] (lines 96-221) *)

Definition command_ain_edit (opts : list (Z * string)) (args : list string)
  : M Z :=
  l ←ₘ command_line opts args ;;
  match project_file l with
  | Some project => project_mode project l
  | None =>
      image ←ₘ open_container l args ;;
      edit_and_write l image
  end.

End command.

(** ** Notions used to state the properties *)

(** Decimal numerals and their values, as the specification reads a
    version component. *)
Definition decimal_digits : list ascii := list_ascii_of_string "0123456789".

Definition decimal_digit (c : ascii) : Prop := c ∈ decimal_digits.

Definition digit_index (c : ascii) : Z :=
  match list_find (λ d, d = c) decimal_digits with
  | Some (i, _) => Z.of_nat i
  | None => 0
  end.

Definition numeral (m : list ascii) : Prop := m ≠ [] ∧ Forall decimal_digit m.

Definition numeral_value (m : list ascii) : Z :=
  fold_left (λ acc c, 10 * acc + digit_index c) m 0.

(** The version strings of the specification: "M" or "M.N", each
    component a numeral of at most two characters. *)
Definition version_form (s : list ascii) : Prop :=
  (numeral s ∧ (length s ≤ 2)%nat)
  ∨ ∃ m n, s = m ++ "."%char :: n
           ∧ numeral m ∧ (length m ≤ 2)%nat
           ∧ numeral n ∧ (length n ≤ 2)%nat.

(** The edit request an option submits, if it submits one. *)
Definition request_of (o : Z * string) : option input :=
  if is_case o.1 "c" LOPT_CODE then Some (Input IN_CODE o.2)
  else if o.1 =? LOPT_JAF then Some (Input IN_JAF o.2)
  else if is_case o.1 "j" LOPT_JSON then Some (Input IN_DECL o.2)
  else if is_case o.1 "t" LOPT_TEXT then Some (Input IN_TEXT o.2)
  else None.

Definition requests_of (opts : list (Z * string)) : list input :=
  omap request_of opts.

Definition is_version_option (o : Z * string) : Prop := o.1 = LOPT_AIN_VERSION.

Section statements.
Context {C : Collaborators}.

(** The collaborator a request of each kind goes to: the call that is
    seen, and what it does to the image. *)
Definition edit_event (asm_flags : Z) (r : input) : event :=
  match type r with
  | IN_CODE => EAssemble (filename r) asm_flags
  | IN_JAF => EJafBuild (filename r)
  | IN_DECL => EReadDeclarations (filename r)
  | IN_TEXT => EReadText (filename r)
  end.

Definition edit_effect (asm_flags : Z) (r : input) (image : ain) : option ain :=
  match type r with
  | IN_CODE => asm_assemble_jam (filename r) image asm_flags
  | IN_JAF => jaf_build image [filename r]
  | IN_DECL => read_declarations (filename r) image
  | IN_TEXT => read_text (filename r) image
  end.

(** Requests applied one after the other to the same image: how many
    were handed to their collaborator, and the image when none failed. *)
Fixpoint run_edits (asm_flags : Z) (q : list input) (image : ain)
  : nat * option ain :=
  match q with
  | [] => (0%nat, Some image)
  | r :: q' =>
      match edit_effect asm_flags r image with
      | Some image' =>
          let '(k, res) := run_edits asm_flags q' image' in (S k, res)
      | None => (1%nat, None)
      end
  end.

Definition is_edit (e : event) : bool :=
  match e with
  | EAssemble _ _ | EJafBuild _ | EReadText _ | EReadDeclarations _ => true
  | _ => false
  end.

Definition is_image_event (e : event) : bool :=
  match e with
  | EAinNew _ _ | EAinOpen _ => true
  | _ => false
  end.

Definition is_write (e : event) : bool :=
  match e with
  | EAinWrite _ _ => true
  | _ => false
  end.

(** Everything between opening the container and the return. *)
Definition is_pipeline_event (e : event) : bool :=
  match e with
  | EInitializeInstructions | EWarning _ | ENotice _ | EPjeBuild _ _ _ => false
  | _ => true
  end.

(** What the write step shows and returns. *)
Definition write_events (g : globals) (output : string) (image : ain)
  : list event :=
  (if sys_silent g then [] else [ENotice "Writing AIN file..."])
  ++ [EAinWrite output image]
  ++ (if ain_write output image then [EAinFree] else []).

Definition write_result (output : string) (image : ain) : result Z :=
  if ain_write output image then Done 0 else Fatal CollaboratorExit.

Definition project_warning : string :=
  "Input files specified on the command line are ignored in --project mode".

Definition transcode_warning : string :=
  "Input files specified on the command line are ignored in --transcode mode".

(** The static array keeps its 256 slots and the count stays inside it. *)
Definition wf (g : globals) : Prop :=
  length (inputs g) = 256%nat ∧ 0 ≤ nr_inputs g ≤ 256.

(** The supported range of the format. *)
Definition version_ok (l : locals) : Prop := 4 ≤ major_version l ≤ 14.

(** Transcoding reads the legacy encoding; otherwise the defaults stand. *)
Definition encodings_ok (l : locals) (g : globals) : Prop :=
  if transcode l then input_encoding g = "CP932"
  else input_encoding g = "UTF-8" ∧ output_encoding g = "CP932".

(** The mode-conflict warning, given when requests were queued. *)
Definition warning_if_queued (q : list input) (msg : string) : list event :=
  match q with
  | [] => []
  | _ :: _ => [EWarning msg]
  end.

(** Line 177-179: the output path, "out.ain" unless -o gave one. *)
Definition output_path (l : locals) : string :=
  default "out.ain" (output_file l).

(** Pushing a list of requests, one [push_input] each, stopping at the
    first that fails. *)
Fixpoint push_all (rs : list input) : M unit :=
  match rs with
  | [] => ret tt
  | r :: rs' => push_input (type r) (filename r) ;;ₘ push_all rs'
  end.

End statements.

(** ** A small set of collaborators, to run the driver on *)

Module Simple.

(** An image is its version and the steps applied to it. *)
Record image : Type := Image { version : Z * Z; history : list string }.

Definition step (s : string) (i : image) : image :=
  {| version := version i; history := history i ++ [s] |}.

Definition collaborators : Collaborators :=
  {| ain := image;
     ASM_RAW := 1;
     ain_new := λ major minor, {| version := (major, minor); history := [] |};
     ain_open := λ path,
       if decide (path = "missing.ain") then inl 2
       else inr {| version := (12, 0); history := ["open " +:+ path] |};
     ain_strerror := λ _, "No such file or directory";
     ain_init_member_functions := λ i _, step "init" i;
     ain_transcode := λ from to i, step ("transcode " +:+ from +:+ " " +:+ to) i;
     asm_assemble_jam := λ f i _, Some (step ("jam " +:+ f) i);
     jaf_build := λ i fs, Some (step ("jaf " +:+ String.concat " " fs) i);
     read_text := λ f i, Some (step ("text " +:+ f) i);
     read_declarations := λ f i, Some (step ("json " +:+ f) i);
     ain_write := λ _ _, true;
     pje_build := λ _ _ _, true |}.

End Simple.

(** ** The option table of [cmd_ain_edit] (lines 223-242) *)

(** A row of [.options]: long name, short letter (0 when there is none),
    whether an argument is required, and the code [alice_getopt] gives
    for the long form.  The help texts are left out. *)
Record command_option : Type := CommandOption {
  opt_name : string;
  opt_short : option ascii;
  opt_has_arg : bool;
  opt_val : Z;
}.

Definition cmd_ain_edit_options : list command_option :=
  [ CommandOption "output" (Some "o"%char) true LOPT_OUTPUT;
    CommandOption "code" (Some "c"%char) true LOPT_CODE;
    CommandOption "jaf" None true LOPT_JAF;
    CommandOption "json" (Some "j"%char) true LOPT_JSON;
    CommandOption "project" (Some "p"%char) true LOPT_PROJECT;
    CommandOption "text" (Some "t"%char) true LOPT_TEXT;
    CommandOption "ain-version" None true LOPT_AIN_VERSION;
    CommandOption "raw" None false LOPT_RAW;
    CommandOption "silent" None false LOPT_SILENT;
    CommandOption "transcode" None true LOPT_TRANSCODE ].

(** The codes the table can produce: each row's value and, when it has
    one, its short letter. *)
Definition option_codes (o : command_option) : list Z :=
  opt_val o :: match opt_short o with Some s => [chr s] | None => [] end.

Definition table_codes : list Z := cmd_ain_edit_options ≫= option_codes.

(** ** What a command line asks for *)

Definition is_project (c : Z) : bool := is_case c "p" LOPT_PROJECT.
Definition is_output (c : Z) : bool := is_case c "o" LOPT_OUTPUT.
Definition is_transcode (c : Z) : bool := c =? LOPT_TRANSCODE.
Definition is_raw (c : Z) : bool := c =? LOPT_RAW.
Definition is_silent (c : Z) : bool := c =? LOPT_SILENT.
Definition is_version (c : Z) : bool := c =? LOPT_AIN_VERSION.

(** The argument of the last option whose code satisfies [p]. *)
Fixpoint last_arg (p : Z → bool) (opts : list (Z * string)) : option string :=
  match opts with
  | [] => None
  | o :: rest =>
      match last_arg p rest with
      | Some a => Some a
      | None => if p o.1 then Some o.2 else None
      end
  end.

(** A value set by the last option of its kind, or kept. *)
Definition or_keep {A} (o : option A) (d : option A) : option A :=
  match o with Some a => Some a | None => d end.

(** Whether some option has a code satisfying [p]. *)
Definition given (p : Z → bool) (opts : list (Z * string)) : bool :=
  existsb (λ o, p o.1) opts.

(** The text of a version component between -9 and 99: a minus sign and
    a digit, or one or two digits; and the version string made of two. *)
Definition digit_char (d : Z) : ascii := ascii_of_nat (48 + Z.to_nat d).

Definition component_text (n : Z) : list ascii :=
  if n <? 0 then ["-"%char; digit_char (- n)]
  else if n <? 10 then [digit_char n]
  else [digit_char (n / 10); digit_char (n mod 10)].

Definition version_string (major minor : Z) : string :=
  string_of_list_ascii
    (component_text major ++ "."%char :: component_text minor).

Section shapes.
Context {C : Collaborators}.

(** The call that obtains the image (lines 181-184). *)
Definition image_event (l : locals) (args : list string) : event :=
  match args with
  | [] => EAinNew (major_version l) (minor_version l)
  | path :: _ => EAinOpen path
  end.

(** The events after the image was obtained, in a run that gets there:
    none when the reader failed; the fix-up, then either the transcoding
    branch or some first requests of the queue, with the write step after
    them unless a collaborator ended the run. *)
Definition pipeline_tail (g : globals) (l : locals) (q : list input)
    (tail : list event) : Prop :=
  tail = []
  ∨ (transcode l = true
     ∧ ∃ image,
         tail = [EInitMemberFunctions]
                ++ warning_if_queued q transcode_warning
                ++ [ETranscode "CP932" (output_encoding g)]
                ++ write_events g (output_path l) image)
  ∨ (transcode l = false
     ∧ ∃ k, tail = [EInitMemberFunctions]
                   ++ (edit_event (flags l) <$> take k q))
  ∨ (transcode l = false
     ∧ ∃ image,
         tail = [EInitMemberFunctions]
                ++ (edit_event (flags l) <$> q)
                ++ write_events g (output_path l) image).

(** The steps that read or change the image after it was obtained:
    transcoding, an edit, the write. *)
Definition works_on_image (x : event) : bool :=
  match x with
  | ETranscode _ _ => true
  | _ => is_edit x || is_write x
  end.

End shapes.

(** ** Sample runs of [parse_version] *)

Example parse_version_4_0 :
  parse_version (version_text "4.0") = Returns (Some (4, 0)).
Proof. reflexivity. Qed.

Example parse_version_14 :
  parse_version (version_text "14") = Returns (Some (14, 0)).
Proof. reflexivity. Qed.

Example parse_version_long :
  parse_version (version_text "1.2.3") = Returns None.
Proof. reflexivity. Qed.

(** ** Facts about the string functions *)

Section libc_facts.
Implicit Types (s src m r : list ascii) (b dst pre rest : buffer) (c : ascii).

Lemma strlen_le s : (strlen s ≤ length s)%nat.
Proof. induction s as [|c s IH]; simpl; [lia|]. case_decide; simpl; lia. Qed.

Lemma strlen_no_nul s : NUL ∉ s → strlen s = length s.
Proof.
  induction s as [|c s IH]; simpl; [done|]. intros Hs.
  apply not_elem_of_cons in Hs as [Hc Hs].
  case_decide; [congruence|]. by rewrite IH.
Qed.

Lemma chars_no_nul s : NUL ∉ s → chars s = s.
Proof. intros Hs. unfold chars. rewrite strlen_no_nul by done. apply firstn_all. Qed.

Lemma chars_length s : length (chars s) = strlen s.
Proof. unfold chars. rewrite length_take. pose proof (strlen_le s). lia. Qed.

Lemma chars_nul_free s : NUL ∉ chars s.
Proof.
  unfold chars. induction s as [|c s IH]; simpl; [apply not_elem_of_nil|].
  case_decide; simpl; [apply not_elem_of_nil|].
  apply not_elem_of_cons. split; [congruence|done].
Qed.

Lemma store_lt b i c :
  (i < length b)%nat → store b i c = Returns (<[i := Some c]> b).
Proof. intros. unfold store. by case_decide. Qed.

Lemma store_ge b i c : (length b ≤ i)%nat → store b i c = Undefined.
Proof. intros. unfold store. case_decide; [lia|done]. Qed.

Lemma store_middle pre x rest c :
  store (pre ++ x :: rest) (length pre) c = Returns (pre ++ Some c :: rest).
Proof.
  rewrite store_lt by (rewrite length_app; simpl; lia).
  rewrite insert_app_r_alt by lia.
  by rewrite Nat.sub_diag.
Qed.

Lemma strcpy_at_app pre rest src :
  (strlen src < length rest)%nat →
  strcpy_at (pre ++ rest) (length pre) src
  = Returns (pre ++ (Some <$> chars src ++ [NUL]) ++ drop (S (strlen src)) rest).
Proof.
  unfold chars.
  induction src as [|c src IH] in pre, rest |- *; intros Hlen.
  - destruct rest as [|x rest]; [simpl in Hlen; lia|].
    simpl. by rewrite store_middle.
  - destruct rest as [|x rest]; [simpl in Hlen; lia|].
    simpl in *. case_decide.
    + simpl. by rewrite store_middle.
    + rewrite store_middle. simpl.
      replace (S (length pre)) with (length (pre ++ [Some c]))
        by (rewrite length_app; simpl; lia).
      rewrite (cons_middle (Some c) pre rest), app_assoc.
      rewrite IH by lia. by rewrite <- app_assoc.
Qed.

Lemma strncpy_at_app pre rest src n :
  (n ≤ strlen src)%nat → (n ≤ length rest)%nat →
  strncpy_at (pre ++ rest) (length pre) src n
  = Returns (pre ++ (Some <$> take n src) ++ drop n rest).
Proof.
  induction n as [|n IH] in pre, rest, src |- *; intros Hsrc Hrest.
  - simpl. by rewrite drop_0.
  - destruct src as [|c src]; [simpl in Hsrc; lia|].
    destruct rest as [|x rest]; [simpl in Hrest; lia|].
    simpl in *. case_decide; [lia|].
    rewrite store_middle. simpl.
    replace (S (length pre)) with (length (pre ++ [Some c]))
      by (rewrite length_app; simpl; lia).
    rewrite (cons_middle (Some c) pre rest), app_assoc.
    rewrite IH by lia. by rewrite <- app_assoc.
Qed.

Lemma load_string_terminated (p : list ascii) rest :
  NUL ∉ p → load_string ((Some <$> p ++ [NUL]) ++ rest) = Returns p.
Proof.
  induction p as [|c p IH]; intros Hp; csimpl.
  - done.
  - apply not_elem_of_cons in Hp as [Hc Hp].
    case_decide; [congruence|]. by rewrite IH.
Qed.

(** A string of at most [n - 1] characters fits an [n]-byte array, and a
    longer one does not. *)
Lemma strcpy_alloca n src :
  (strlen src < n)%nat →
  ∃ b, strcpy (alloca n) src = Returns b ∧ length b = n
       ∧ load_string b = Returns (chars src).
Proof.
  intros Hlen. unfold strcpy, alloca.
  pose proof (strcpy_at_app [] (replicate n None) src) as H.
  rewrite length_replicate in H. specialize (H Hlen). simpl in H.
  eexists. split; [exact H|]. split.
  - rewrite length_app, length_fmap, length_app, chars_length, length_drop,
      length_replicate. simpl. lia.
  - apply load_string_terminated, chars_nul_free.
Qed.

Lemma strcpy_at_overflow dst i src :
  (length dst ≤ i + strlen src)%nat → strcpy_at dst i src = Undefined.
Proof.
  induction src as [|c src IH] in dst, i |- *; simpl; intros Hlen.
  - apply store_ge. lia.
  - case_decide; [apply store_ge; lia|].
    unfold store. case_decide; [|done]. simpl.
    apply IH. rewrite length_insert. lia.
Qed.

Lemma strchr_Some s c k :
  c ≠ NUL → strchr s c = Some k →
  s = (take k s ++ c :: drop (S k) s) ∧ length (take k s) = k
  ∧ (c ∉ take k s) ∧ (NUL ∉ take k s).
Proof.
  intros Hc. induction s as [|x s IH] in k |- *; simpl.
  - case_decide; [done|]. discriminate.
  - case_decide as Hx.
    + intros [= <-]. subst x. simpl. repeat split; auto using not_elem_of_nil.
    + case_decide as Hn; [discriminate|].
      destruct (strchr s c) as [j|] eqn:Hj; simpl; [|discriminate].
      intros [= <-]. destruct (IH j eq_refl) as (Hs & Hl & H1 & H2).
      simpl. repeat split.
      * by rewrite <- Hs.
      * by rewrite Hl.
      * apply not_elem_of_cons. split; [congruence|done].
      * apply not_elem_of_cons. split; [congruence|done].
Qed.

Lemma strchr_first m c r :
  c ∉ m → NUL ∉ m → strchr (m ++ c :: r) c = Some (length m).
Proof.
  induction m as [|x m IH]; simpl; intros H1 H2.
  - by case_decide.
  - apply not_elem_of_cons in H1 as [? ?].
    apply not_elem_of_cons in H2 as [? ?].
    case_decide; [congruence|]. case_decide; [congruence|].
    by rewrite IH.
Qed.

Lemma strchr_absent s c : c ≠ NUL → c ∉ s → strchr s c = None.
Proof.
  intros Hc. induction s as [|x s IH]; simpl; intros Hs.
  - by case_decide.
  - apply not_elem_of_cons in Hs as [? ?].
    case_decide; [congruence|]. case_decide; [done|]. by rewrite IH.
Qed.

End libc_facts.

(** ** What [parse_version] computes *)

Section parse_version_facts.
Implicit Types (s str m r : list ascii).

Lemma load_string_terminated' (p : list ascii) (rest : buffer) :
  NUL ∉ p → load_string ((Some <$> p) ++ Some NUL :: rest) = Returns p.
Proof.
  intros Hp. rewrite <- (load_string_terminated p rest Hp).
  by rewrite fmap_app, <- app_assoc.
Qed.

Lemma prefix_within_strlen s k :
  NUL ∉ take k s → length (take k s) = k → (k ≤ strlen s)%nat.
Proof.
  induction s as [|c s IH] in k |- *; destruct k as [|k]; simpl; try lia.
  intros Hn Hl. apply not_elem_of_cons in Hn as [? ?].
  case_decide; [congruence|]. apply le_n_S, IH; [done|lia].
Qed.

Lemma minor_default :
  strcpy (alloca 3) ["0"%char] = Returns [Some "0"%char; Some NUL; None].
Proof. reflexivity. Qed.

Lemma atoi_buf_terminated (p : list ascii) (rest : buffer) :
  NUL ∉ p → atoi_buf ((Some <$> p) ++ Some NUL :: rest) = Returns (atoi p).
Proof. intros Hp. unfold atoi_buf. by rewrite load_string_terminated'. Qed.

Lemma parse_version_no_dot str :
  strchr str "."%char = None →
  parse_version str
  = Returns (if decide (2 < strlen str)%nat then None
             else Some (atoi (chars str), 0)).
Proof.
  intros Hdot. unfold parse_version. rewrite Hdot.
  case_decide; [done|].
  destruct (strcpy_alloca 3 str) as (b & Hb & _ & Hload); [lia|].
  rewrite Hb, minor_default. cbn [exec_bind].
  unfold atoi_buf at 1. rewrite Hload. reflexivity.
Qed.

Lemma parse_version_dot str k :
  strchr str "."%char = Some k →
  parse_version str
  = Returns (if decide (2 < k)%nat then None
             else if decide (2 < strlen (drop (S k) str))%nat then None
             else Some (atoi (take k str), atoi (chars (drop (S k) str)))).
Proof.
  intros Hdot. unfold parse_version. rewrite Hdot.
  case_decide as Hk; [done|]. case_decide as Hr; [done|].
  destruct (strchr_Some str "."%char k) as (_ & Hlen & _ & Hnul); [done..|].
  pose proof (prefix_within_strlen str k Hnul Hlen) as Hle.
  unfold strncpy.
  pose proof (strncpy_at_app [] (alloca 3) str k Hle) as Hcopy.
  cbn [app length] in Hcopy.
  rewrite Hcopy by (unfold alloca; rewrite length_replicate; lia).
  clear Hcopy. cbn [exec_bind].
  assert (drop k (alloca 3) = None :: replicate (2 - k) None) as ->.
  { unfold alloca. destruct k as [|[|[|k]]]; try reflexivity. lia. }
  pose proof (store_middle (Some <$> take k str) None
                (replicate (2 - k) None) NUL) as Hst.
  rewrite length_fmap, Hlen in Hst. rewrite Hst. cbn [exec_bind].
  destruct (strcpy_alloca 3 (drop (S k) str)) as (b & Hb & _ & Hload); [lia|].
  rewrite Hb. cbn [exec_bind]. rewrite atoi_buf_terminated by done.
  cbn [exec_bind]. unfold atoi_buf. by rewrite Hload.
Qed.

(** [parse_version] stays within its two arrays and reads only what it
    wrote, whatever the input. *)
Lemma parse_version_defined str : ∃ res, parse_version str = Returns res.
Proof.
  destruct (strchr str "."%char) as [k|] eqn:Hdot.
  - rewrite (parse_version_dot str k Hdot). eauto.
  - rewrite (parse_version_no_dot str Hdot). eauto.
Qed.

End parse_version_facts.

(** ** Version strings *)

Section version_statements.
Implicit Types (s m n r : list ascii) (c : ascii).

Lemma decimal_digit_inv c :
  decimal_digit c →
  isdigit c = true ∧ digit_value c = digit_index c ∧ isspace c = false
  ∧ c ≠ "-"%char ∧ c ≠ "+"%char ∧ c ≠ NUL ∧ c ≠ "."%char.
Proof.
  unfold decimal_digit, decimal_digits. simpl. intros Hc.
  repeat (apply elem_of_cons in Hc as [->|Hc];
          [vm_compute; repeat split; discriminate|]).
  by apply elem_of_nil in Hc.
Qed.

Lemma numeral_clean m :
  Forall decimal_digit m → (NUL ∉ m) ∧ ("."%char ∉ m).
Proof.
  induction 1 as [|c m Hc _ [IH1 IH2]].
  - split; apply not_elem_of_nil.
  - apply decimal_digit_inv in Hc as (_ & _ & _ & _ & _ & ? & ?).
    split; apply not_elem_of_cons; split; done.
Qed.

Lemma atoi_digits_numeral m acc :
  Forall decimal_digit m →
  atoi_digits acc m = fold_left (λ a c, 10 * a + digit_index c) m acc.
Proof.
  intros Hm. induction Hm as [|c m Hc _ IH] in acc |- *; simpl; [done|].
  apply decimal_digit_inv in Hc as (-> & -> & _). apply IH.
Qed.

Lemma atoi_numeral m : numeral m → atoi m = numeral_value m.
Proof.
  intros [Hne Hm]. destruct Hm as [|c m Hc Hm]; [done|].
  unfold atoi, numeral_value.
  pose proof (decimal_digit_inv c Hc) as (_ & _ & Hsp & Hminus & Hplus & _).
  cbn [skip_spaces]. rewrite Hsp.
  case_decide; [done|]. case_decide; [done|].
  apply atoi_digits_numeral. by constructor.
Qed.

Lemma parse_version_plain s :
  NUL ∉ s → "."%char ∉ s →
  parse_version s
  = Returns (if decide (2 < length s)%nat then None else Some (atoi s, 0)).
Proof.
  intros Hnul Hdot.
  rewrite parse_version_no_dot by (by apply strchr_absent).
  by rewrite strlen_no_nul, chars_no_nul.
Qed.

Lemma parse_version_dotted m r :
  NUL ∉ m → "."%char ∉ m → NUL ∉ r →
  parse_version (m ++ "."%char :: r)
  = Returns (if decide (2 < length m ∨ 2 < length r)%nat then None
             else Some (atoi m, atoi r)).
Proof.
  intros Hm Hdot Hr.
  rewrite (parse_version_dot _ (length m)) by (by apply strchr_first).
  rewrite (cons_middle "."%char m r), app_assoc.
  replace (S (length m)) with (length (m ++ ["."%char]))
    by (rewrite length_app; simpl; lia).
  rewrite drop_app_length, <- app_assoc, take_app_length.
  rewrite strlen_no_nul, chars_no_nul by done.
  repeat case_decide; try done; lia.
Qed.

(** C1, as the code has it.  On every "M" or "M.N" whose components are
    decimal numerals of at most two characters [parse_version] returns
    (M, 0) or (M, N).  It fails exactly when the text before the first
    dot (the whole string when there is none) or the text after the first
    dot is longer than two characters; any other string is accepted, each
    component read the way [atoi] reads it. *)
Theorem parse_version_by_length :
  (∀ m, numeral m → (length m ≤ 2)%nat →
        parse_version m = Returns (Some (numeral_value m, 0)))
  ∧ (∀ m n, numeral m → (length m ≤ 2)%nat →
            numeral n → (length n ≤ 2)%nat →
            parse_version (m ++ "."%char :: n)
            = Returns (Some (numeral_value m, numeral_value n)))
  ∧ (∀ s, NUL ∉ s → "."%char ∉ s →
          parse_version s
          = Returns (if decide (2 < length s)%nat then None
                     else Some (atoi s, 0)))
  ∧ (∀ m r, NUL ∉ m → "."%char ∉ m → NUL ∉ r →
            parse_version (m ++ "."%char :: r)
            = Returns (if decide (2 < length m ∨ 2 < length r)%nat then None
                       else Some (atoi m, atoi r))).
Proof.
  split; [|split; [|split]].
  - intros m Hm Hlen. destruct (numeral_clean m (proj2 Hm)) as [? ?].
    rewrite parse_version_plain by done.
    case_decide; [lia|]. by rewrite atoi_numeral.
  - intros m n Hm Hlm Hn Hln.
    destruct (numeral_clean m (proj2 Hm)) as [? ?].
    destruct (numeral_clean n (proj2 Hn)) as [? _].
    rewrite parse_version_dotted by done.
    case_decide; [lia|]. by rewrite !atoi_numeral.
  - apply parse_version_plain.
  - apply parse_version_dotted.
Qed.

Lemma parse_version_by_length_witness :
  parse_version (version_text "14") = Returns (Some (14, 0))
  ∧ parse_version (version_text "6.01") = Returns (Some (6, 1))
  ∧ parse_version (version_text "abc") = Returns None
  ∧ parse_version (version_text "x.y") = Returns (Some (0, 0)).
Proof.
  destruct parse_version_by_length as (H1 & H2 & H3 & H4).
  split; [|split; [|split]].
  - apply (H1 (version_text "14")); [|simpl; lia].
    split; [discriminate|]. repeat constructor; by vm_compute.
  - apply (H2 (version_text "6") (version_text "01")); try (simpl; lia).
    + split; [discriminate|]. repeat constructor; by vm_compute.
    + split; [discriminate|]. repeat constructor; by vm_compute.
  - apply (H3 (version_text "abc")); compute_done.
  - apply (H4 (version_text "x") (version_text "y")); compute_done.
Defined.

(** C1 as stated fails: a second dot, or letters, inside the length
    limits are accepted. *)
Lemma parse_version_accepts_malformed :
  (¬ version_form (version_text "1..")
   ∧ parse_version (version_text "1..") = Returns (Some (1, 0)))
  ∧ (¬ version_form (version_text "4x")
     ∧ parse_version (version_text "4x") = Returns (Some (4, 0))).
Proof.
  assert (Hdot : ¬ decimal_digit "."%char).
  { intros H. by apply decimal_digit_inv in H as (_ & _ & _ & _ & _ & _ & ?). }
  assert (Hx : ¬ decimal_digit "x"%char).
  { intros H. apply decimal_digit_inv in H as (H & _). by vm_compute in H. }
  split; (split; [|reflexivity]).
  - intros [[[_ Hd] _] | (m & n & Heq & [_ Hm] & Hlm & [_ Hn] & Hln)].
    + apply Forall_cons in Hd as [_ Hd]. apply Forall_cons in Hd as [Hd _]. done.
    + destruct m as [|a [|b [|c m]]]; simpl in *; try lia; simplify_eq.
      * apply Forall_cons in Hn as [Hn _]. done.
      * apply Forall_cons in Hm as [_ Hm]. apply Forall_cons in Hm as [Hm _]. done.
  - intros [[[_ Hd] _] | (m & n & Heq & [_ Hm] & Hlm & [_ Hn] & Hln)].
    + apply Forall_cons in Hd as [_ Hd]. apply Forall_cons in Hd as [Hd _]. done.
    + destruct m as [|a [|b [|c m]]]; simpl in *; try lia; simplify_eq.
Qed.

(** C10.  [parse_version] never writes outside [major_str] or
    [minor_str] and never reads a cell it did not write: the checked run
    is defined on every input.  Whenever it gets to the copies, the length
    guards have held, so at most two characters and a terminator go into
    each 3-byte array; a longer copy would be undefined. *)
Theorem parse_version_buffers_safe (str : list ascii) :
  parse_version str ≠ Undefined
  ∧ (∀ v, parse_version str = Returns (Some v) →
          match strchr str "."%char with
          | Some dot => (dot ≤ 2)%nat ∧ (strlen (drop (S dot) str) ≤ 2)%nat
          | None => (strlen str ≤ 2)%nat
          end)
  ∧ (∀ src, (2 < strlen src)%nat → strcpy (alloca 3) src = Undefined).
Proof.
  split; [|split].
  - destruct (parse_version_defined str) as [res ->]. discriminate.
  - intros v. destruct (strchr str "."%char) as [k|] eqn:Hdot.
    + rewrite (parse_version_dot str k Hdot).
      repeat case_decide; intros [=]; lia.
    + rewrite (parse_version_no_dot str Hdot).
      case_decide; intros [=]; lia.
  - intros src Hlen. apply strcpy_at_overflow.
    unfold alloca. rewrite length_replicate. lia.
Qed.

Lemma parse_version_buffers_safe_witness :
  parse_version (version_text "12.34") ≠ Undefined
  ∧ match strchr (version_text "12.34") "."%char with
    | Some dot =>
        (dot ≤ 2)%nat
        ∧ (strlen (drop (S dot) (version_text "12.34")) ≤ 2)%nat
    | None => (strlen (version_text "12.34") ≤ 2)%nat
    end
  ∧ strcpy (alloca 3) (version_text "123") = Undefined.
Proof.
  destruct (parse_version_buffers_safe (version_text "12.34")) as (H1 & H2 & H3).
  split; [exact H1|]. split.
  - apply (H2 (12, 34)). reflexivity.
  - apply H3. simpl. lia.
Defined.

End version_statements.

(** ** The input queue *)

Section queue_facts.
Context {C : Collaborators}.
Implicit Types (g : globals) (l : locals) (r : input) (rs : list input).

Lemma wf_globals0 : wf globals0.
Proof. split; [reflexivity|simpl; lia]. Qed.

Lemma queue_length g : wf g → length (queue g) = Z.to_nat (nr_inputs g).
Proof. intros [Hl Hn]. unfold queue. rewrite length_take. lia. Qed.

Lemma add_log_nil g : add_log g [] = g.
Proof. destruct g. unfold add_log. simpl. by rewrite app_nil_r. Qed.

Lemma add_log_app g es1 es2 :
  add_log (add_log g es1) es2 = add_log g (es1 ++ es2).
Proof. unfold add_log. simpl. by rewrite app_assoc. Qed.

Lemma push_input_full t f g :
  nr_inputs g >= 256 →
  push_input t f g = (g, Fatal (AliceError "Too many inputs")).
Proof. intros. unfold push_input. by case_decide. Qed.

Lemma push_input_room t f g :
  wf g → nr_inputs g < 256 →
  ∃ g', push_input t f g = (g', Done tt)
        ∧ wf g' ∧ nr_inputs g' = nr_inputs g + 1
        ∧ queue g' = queue g ++ [Input t f]
        ∧ log g' = log g ∧ sys_silent g' = sys_silent g
        ∧ input_encoding g' = input_encoding g
        ∧ output_encoding g' = output_encoding g.
Proof.
  intros [Hl Hn] Hroom. unfold push_input.
  case_decide; [lia|]. case_decide; [|lia].
  eexists. split; [reflexivity|]. unfold wf, queue. simpl.
  rewrite length_insert. repeat split; try done; try lia.
  replace (Z.to_nat (nr_inputs g + 1)) with (S (Z.to_nat (nr_inputs g))) by lia.
  rewrite (take_S_r _ _ (Input t f)).
  - by rewrite take_insert_ge.
  - apply list_lookup_insert_eq. lia.
Qed.

Lemma push_all_spec rs g :
  wf g →
  wf (push_all rs g).1
  ∧ nr_inputs (push_all rs g).1
    = Z.min (nr_inputs g + Z.of_nat (length rs)) 256
  ∧ queue (push_all rs g).1 = take 256 (queue g ++ rs)
  ∧ log (push_all rs g).1 = log g
  ∧ (push_all rs g).2
    = if decide (nr_inputs g + Z.of_nat (length rs) ≤ 256) then Done tt
      else Fatal (AliceError "Too many inputs").
Proof.
  induction rs as [|r rs IH] in g |- *; intros Hwf.
  - simpl. pose proof (queue_length g Hwf). destruct Hwf as [? ?].
    rewrite app_nil_r, take_ge by lia. split; [done|].
    repeat split; try done; try lia. case_decide; [done|lia].
  - cbn [push_all]. unfold bind.
    destruct (decide (nr_inputs g < 256)) as [Hroom|Hfull].
    + destruct (push_input_room (type r) (filename r) g Hwf Hroom)
        as (g' & -> & Hwf' & Hnr & Hq & Hlog & _).
      destruct (IH g' Hwf') as (IH1 & IH2 & IH3 & IH4 & IH5).
      rewrite IH2, IH3, IH4, IH5, Hnr, Hq, Hlog. destruct r. simpl.
      rewrite <- app_assoc. simpl. split; [exact IH1|].
      repeat split; try done; try lia. repeat case_decide; try done; lia.
    + rewrite push_input_full by lia. simpl.
      pose proof (queue_length g Hwf). destruct Hwf as [? ?].
      rewrite take_app_le, take_ge by lia. split; [done|].
      repeat split; try done; try lia. case_decide; [lia|done].
Qed.

(** C7.  From the empty queue, pushes succeed while fewer than 256
    requests are queued, each appending its request: after pushing [rs]
    the queue holds the first 256 of them, in order, and its length never
    passes 256.  The run of pushes succeeds exactly when [rs] has at most
    256 requests; otherwise the 257th push ends it with "Too many
    inputs".  A push on a full queue changes nothing. *)
Theorem push_input_capacity (rs : list input) :
  nr_inputs (push_all rs globals0).1 = Z.of_nat (min (length rs) 256)
  ∧ queue (push_all rs globals0).1 = take 256 rs
  ∧ nr_inputs (push_all rs globals0).1 ≤ 256
  ∧ (push_all rs globals0).2
    = (if decide (length rs ≤ 256)%nat then Done tt
       else Fatal (AliceError "Too many inputs"))
  ∧ (∀ t f g, nr_inputs g >= 256 →
              push_input t f g = (g, Fatal (AliceError "Too many inputs"))).
Proof.
  destruct (push_all_spec rs globals0 wf_globals0) as (_ & H2 & H3 & _ & H5).
  rewrite H2, H3, H5. change (nr_inputs globals0) with 0.
  change (queue globals0) with (@nil input). simpl.
  repeat split; try lia.
  - repeat case_decide; try done; lia.
  - apply push_input_full.
Qed.

End queue_facts.

(** ** The option loop *)

Section option_facts.
Context {C : Collaborators}.
Implicit Types (g : globals) (l : locals) (opts : list (Z * string)).

Ltac option_code c :=
  unfold handle_option, request_of, is_case, chr, LOPT_PROJECT, LOPT_CODE,
    LOPT_JAF, LOPT_JSON, LOPT_TEXT, LOPT_TRANSCODE, LOPT_OUTPUT, LOPT_RAW,
    LOPT_AIN_VERSION, LOPT_SILENT in *;
  cbn [fst snd nat_of_ascii] in *;
  repeat match goal with
    | |- context [Z.eqb c ?k] =>
        destruct (Z.eqb_spec c k) as [->|?]; cbn [orb]
    end.

Lemma handle_option_step c a l g :
  wf g →
  ∃ g' r, handle_option c a l g = (g', r)
    ∧ log g' = log g ∧ wf g'
    ∧ match r with
      | Done l' =>
          queue g' = queue g ++ option_list (request_of (c, a))
          ∧ (version_ok l → version_ok l')
          ∧ (c ≠ LOPT_AIN_VERSION →
             major_version l' = major_version l
             ∧ minor_version l' = minor_version l)
          ∧ (encodings_ok l g → encodings_ok l' g')
      | Fatal e => g' = g
      end.
Proof.
  intros Hwf.
  assert (Hpush : ∀ t, ∃ g' r,
    (push_input t a ;;ₘ ret l) g = (g', r)
    ∧ log g' = log g ∧ wf g'
    ∧ match r with
      | Done l' =>
          queue g' = queue g ++ [Input t a] ∧ l' = l
          ∧ (encodings_ok l g → encodings_ok l g')
      | Fatal e => g' = g
      end).
  { intros t. unfold bind. destruct (decide (nr_inputs g < 256)) as [Hroom|Hfull].
    - destruct (push_input_room t a g Hwf Hroom)
        as (g' & -> & Hwf' & _ & Hq & Hlog & _ & Hie & Hoe).
      exists g', (Done l). do 5 (split; [done|]).
      unfold encodings_ok. by rewrite Hie, Hoe.
    - rewrite push_input_full by lia. by exists g, (Fatal (AliceError "Too many inputs")). }
  option_code c.
  all: simpl.
  all: try match goal with
    | |- context [bind (push_input ?t _) _ _] =>
        destruct (Hpush t) as (g' & r & -> & ? & ? & Hr);
        exists g', r; do 2 (split; [done|]); split; [done|];
        destruct r; [destruct Hr as (? & -> & ?)|]; by rewrite ?app_nil_r
    end.
  all: try (eexists _, _; split; [reflexivity|];
            unfold encodings_ok, version_ok; simpl; rewrite ?app_nil_r;
            do 5 (split; [done|]); done).
  - (* --ain-version *)
    destruct (parse_version (version_text a)) as [|[[major minor]|]];
      [by exists g, (Fatal UndefinedBehaviour)| |by eexists _, _].
    destruct ((major <? 4) || (major >? 14)) eqn:Hrange;
      [by eexists _, _|].
    eexists _, _. split; [reflexivity|]. rewrite app_nil_r.
    do 3 (split; [done|]). split; [|done].
    intros _. unfold version_ok. simpl.
    apply orb_false_iff in Hrange as [? ?]. lia.
Qed.

Lemma handle_option_version s l g :
  handle_option LOPT_AIN_VERSION s l g
  = match parse_version (version_text s) with
    | Undefined => (g, Fatal UndefinedBehaviour)
    | Returns None => (g, Fatal (AliceError "Invalid AIN version (parse error)"))
    | Returns (Some (major, minor)) =>
        if (major <? 4) || (major >? 14) then
          (g, Fatal (AliceError "Invalid AIN version (4-14 supported)"))
        else
          (g, Done (Locals (project_file l) (output_file l) major minor
                           (transcode l) (flags l)))
    end.
Proof.
  unfold handle_option. cbn [is_case LOPT_AIN_VERSION].
  change (handle_option LOPT_AIN_VERSION s l g) with
    (match parse_version (version_text s) with
     | Undefined => abort UndefinedBehaviour
     | Returns None => ALICE_ERROR "Invalid AIN version (parse error)"
     | Returns (Some (major, minor)) =>
         if (major <? 4) || (major >? 14) then
           ALICE_ERROR "Invalid AIN version (4-14 supported)"
         else
           ret (Locals (project_file l) (output_file l) major minor
                       (transcode l) (flags l))
     end g).
  destruct (parse_version (version_text s)) as [|[[major minor]|]]; try done.
  by destruct ((major <? 4) || (major >? 14)).
Qed.

Lemma option_loop_app opts1 opts2 l g :
  option_loop (opts1 ++ opts2) l g
  = bind (option_loop opts1 l) (option_loop opts2) g.
Proof.
  induction opts1 as [|[c a] opts1 IH] in l, g |- *; [done|].
  cbn [app option_loop]. unfold bind.
  destruct (handle_option c a l g) as [g' [l'|e]]; [|done].
  by rewrite IH.
Qed.

Lemma option_loop_spec opts l g :
  wf g →
  ∃ g' r, option_loop opts l g = (g', r)
    ∧ log g' = log g ∧ wf g'
    ∧ match r with
      | Done l' =>
          queue g' = queue g ++ requests_of opts
          ∧ (version_ok l → version_ok l')
          ∧ (Forall (λ o, ¬ is_version_option o) opts →
             major_version l' = major_version l
             ∧ minor_version l' = minor_version l)
          ∧ (encodings_ok l g → encodings_ok l' g')
      | Fatal e => True
      end.
Proof.
  induction opts as [|[c a] opts IH] in l, g |- *; intros Hwf.
  - exists g, (Done l). simpl. rewrite app_nil_r.
    do 6 (split; [done|]). done.
  - cbn [option_loop]. unfold bind.
    destruct (handle_option_step c a l g Hwf) as (g1 & r1 & -> & Hlog1 & Hwf1 & Hr1).
    destruct r1 as [l1|e]; [|by exists g1, (Fatal e)].
    destruct Hr1 as (Hq1 & Hv1 & Hm1 & He1).
    destruct (IH l1 g1 Hwf1) as (g2 & r2 & -> & Hlog2 & Hwf2 & Hr2).
    exists g2, r2. split; [done|]. split; [congruence|]. split; [done|].
    destruct r2 as [l2|e]; [|done].
    destruct Hr2 as (Hq2 & Hv2 & Hm2 & He2).
    split; [|split; [tauto|split; [|tauto]]].
    + rewrite Hq2, Hq1, <- app_assoc. f_equal. unfold requests_of. simpl.
      by destruct (request_of (c, a)).
    + intros Hall. apply Forall_cons in Hall as [Hc Hall].
      destruct (Hm1 Hc) as [<- <-]. by apply Hm2.
Qed.

Lemma read_options_unfold opts :
  read_options opts globals0
  = option_loop opts locals0
      (Globals (replicate 256 empty_slot) 0 "UTF-8" "CP932" false
               [EInitializeInstructions]).
Proof. reflexivity. Qed.

Lemma read_options_spec opts g r :
  read_options opts globals0 = (g, r) →
  log g = [EInitializeInstructions] ∧ wf g
  ∧ match r with
    | Done l => queue g = requests_of opts ∧ version_ok l ∧ encodings_ok l g
    | Fatal e => True
    end.
Proof.
  rewrite read_options_unfold.
  match goal with |- option_loop _ _ ?g0 = _ → _ =>
    destruct (option_loop_spec opts locals0 g0) as (g' & r' & -> & Hlog & Hwf & Hr);
      [split; [reflexivity|simpl; lia]|] end.
  intros [= <- <-]. do 2 (split; [done|]).
  destruct r' as [l|e]; [|done]. destruct Hr as (Hq & Hv & _ & He).
  split; [done|]. split; [apply Hv|apply He].
  - unfold version_ok. simpl. lia.
  - by split.
Qed.

Lemma read_options_app opts1 opts2 :
  read_options (opts1 ++ opts2) globals0
  = bind (read_options opts1) (option_loop opts2) globals0.
Proof.
  rewrite !read_options_unfold, option_loop_app. unfold bind.
  rewrite <- read_options_unfold. by rewrite read_options_unfold.
Qed.

Lemma command_line_unfold opts args :
  command_line opts args globals0
  = match read_options opts globals0 with
    | (g, Done l) =>
        if decide (Z.of_nat (length args) > 1)
        then (g, Fatal (UsageError "Too many arguments."))
        else (g, Done l)
    | (g, Fatal e) => (g, Fatal e)
    end.
Proof.
  unfold command_line, bind.
  destruct (read_options opts globals0) as [g [l|e]]; [|done].
  by case_decide.
Qed.

Lemma command_line_Done opts args g l :
  command_line opts args globals0 = (g, Done l) →
  read_options opts globals0 = (g, Done l) ∧ (length args ≤ 1)%nat.
Proof.
  rewrite command_line_unfold.
  destruct (read_options opts globals0) as [g' [l'|e]]; [|done].
  case_decide; [done|]. intros [= <- <-]. split; [done|lia].
Qed.

Lemma command_line_spec opts args g l :
  command_line opts args globals0 = (g, Done l) →
  log g = [EInitializeInstructions] ∧ wf g
  ∧ queue g = requests_of opts ∧ version_ok l ∧ encodings_ok l g
  ∧ (length args ≤ 1)%nat.
Proof.
  intros [Hread Hargs]%command_line_Done.
  apply read_options_spec in Hread as (? & ? & ? & ? & ?). done.
Qed.

(** The version in force after the options is the one of the last
    version option. *)
Lemma read_options_last_version before s after g l major minor :
  read_options (before ++ (LOPT_AIN_VERSION, s) :: after) globals0 = (g, Done l) →
  Forall (λ o, ¬ is_version_option o) after →
  parse_version (version_text s) = Returns (Some (major, minor)) →
  major_version l = major ∧ minor_version l = minor ∧ 4 ≤ major ≤ 14.
Proof.
  rewrite read_options_app. unfold bind.
  destruct (read_options before globals0) as [g1 [l1|e]] eqn:Hbefore; [|done].
  apply read_options_spec in Hbefore as (_ & Hwf1 & _).
  cbn [option_loop]. unfold bind. rewrite handle_option_version.
  intros Hrun Hafter Hparse. rewrite Hparse in Hrun.
  destruct ((major <? 4) || (major >? 14)) eqn:Hrange; [done|].
  apply orb_false_iff in Hrange as [? ?].
  match type of Hrun with option_loop _ ?l2 _ = _ =>
    destruct (option_loop_spec after l2 g1 Hwf1) as (g' & r' & Heq & _ & _ & Hr) end.
  rewrite Heq in Hrun. injection Hrun as <- ->.
  destruct Hr as (_ & _ & Hm & _). destruct (Hm Hafter) as [-> ->].
  simpl. lia.
Qed.

End option_facts.

(** ** The steps on the image *)

Section pipeline_facts.
Context {C : Collaborators}.
Implicit Types (g : globals) (l : locals) (q : list input) (image : ain).

Lemma write_ain_file_spec output image g :
  write_ain_file output image g
  = (add_log g (write_events g output image), write_result output image).
Proof.
  unfold write_ain_file, write_events, write_result, NOTICE, bind, emit, abort, ret.
  destruct (sys_silent g) eqn:Hs; destruct (ain_write output image);
    cbn [sys_silent add_log]; rewrite ?Hs, ?add_log_app; done.
Qed.

Lemma dispatch_spec (r : input) asm_flags image g :
  dispatch r asm_flags image g
  = (add_log g [edit_event asm_flags r],
     match edit_effect asm_flags r image with
     | Some image' => Done image'
     | None => Fatal CollaboratorExit
     end).
Proof.
  unfold dispatch, edit_event, edit_effect, call, emit.
  destruct (type r); simpl; by case_match.
Qed.

Lemma apply_inputs_spec q pre post asm_flags image g :
  inputs g = pre ++ q ++ post →
  apply_inputs (length q) (length pre) asm_flags image g
  = (add_log g (edit_event asm_flags <$> take (run_edits asm_flags q image).1 q),
     match (run_edits asm_flags q image).2 with
     | Some image' => Done image'
     | None => Fatal CollaboratorExit
     end).
Proof.
  induction q as [|r q IH] in pre, image, g |- *; intros Hin.
  - simpl. by rewrite add_log_nil.
  - cbn [length apply_inputs run_edits].
    assert (inputs g !! length pre = Some r) as ->
      by (rewrite Hin; by apply list_lookup_middle).
    unfold bind. rewrite dispatch_spec.
    destruct (edit_effect asm_flags r image) as [image'|]; [|done].
    replace (S (length pre)) with (length (pre ++ [r]))
      by (rewrite length_app; simpl; lia).
    rewrite IH by (simpl; rewrite Hin, <- app_assoc; done).
    destruct (run_edits asm_flags q image') as [k res].
    by rewrite add_log_app.
Qed.

Lemma apply_queue asm_flags image g :
  wf g →
  apply_inputs (Z.to_nat (nr_inputs g)) 0 asm_flags image g
  = (add_log g (edit_event asm_flags
                  <$> take (run_edits asm_flags (queue g) image).1 (queue g)),
     match (run_edits asm_flags (queue g) image).2 with
     | Some image' => Done image'
     | None => Fatal CollaboratorExit
     end).
Proof.
  intros Hwf. rewrite <- (queue_length g Hwf).
  apply (apply_inputs_spec (queue g) [] (drop (Z.to_nat (nr_inputs g)) (inputs g))).
  simpl. unfold queue. by rewrite take_drop.
Qed.

Lemma run_edits_all asm_flags q image image' :
  (run_edits asm_flags q image).2 = Some image' →
  (run_edits asm_flags q image).1 = length q.
Proof.
  induction q as [|r q IH] in image |- *; simpl; [done|].
  destruct (edit_effect asm_flags r image) as [image1|]; [|done].
  specialize (IH image1).
  destruct (run_edits asm_flags q image1) as [k res]. simpl in *.
  intros H. by rewrite IH.
Qed.

Lemma queued_warning g msg :
  wf g →
  when (bool_decide (nr_inputs g > 0)) (WARNING msg) g
  = (add_log g (warning_if_queued (queue g) msg), Done tt).
Proof.
  intros Hwf. pose proof (queue_length g Hwf) as Hlen.
  unfold when, WARNING, emit, ret.
  case_bool_decide; destruct (queue g); simpl in *;
    rewrite ?add_log_nil; try done; lia.
Qed.

Lemma edit_and_write_transcode l image g :
  wf g → transcode l = true →
  edit_and_write l image g
  = (add_log g
       ([EInitMemberFunctions]
        ++ warning_if_queued (queue g) transcode_warning
        ++ [ETranscode (input_encoding g) (output_encoding g)]
        ++ write_events g (output_path l)
             (ain_transcode (input_encoding g) (output_encoding g)
                (ain_init_member_functions image (output_encoding g)))),
     write_result (output_path l)
       (ain_transcode (input_encoding g) (output_encoding g)
          (ain_init_member_functions image (output_encoding g)))).
Proof.
  intros Hwf Ht. unfold edit_and_write. rewrite Ht.
  unfold bind at 1. unfold emit at 1. unfold bind at 1.
  change (nr_inputs g) with (nr_inputs (add_log g [EInitMemberFunctions])).
  rewrite queued_warning by done.
  unfold bind, emit. rewrite write_ain_file_spec, !add_log_app.
  done.
Qed.

Lemma edit_and_write_edits l image g :
  wf g → transcode l = false →
  edit_and_write l image g
  = match run_edits (flags l) (queue g)
            (ain_init_member_functions image (output_encoding g)) with
    | (_, Some image') =>
        (add_log g
           ([EInitMemberFunctions]
            ++ (edit_event (flags l) <$> queue g)
            ++ write_events g (output_path l) image'),
         write_result (output_path l) image')
    | (k, None) =>
        (add_log g
           ([EInitMemberFunctions]
            ++ (edit_event (flags l) <$> take k (queue g))),
         Fatal CollaboratorExit)
    end.
Proof.
  intros Hwf Ht. unfold edit_and_write. rewrite Ht.
  unfold bind at 1. unfold emit at 1. unfold bind at 1.
  change (nr_inputs g) with (nr_inputs (add_log g [EInitMemberFunctions])).
  rewrite apply_queue by done.
  change (queue (add_log g [EInitMemberFunctions])) with (queue g).
  pose proof (run_edits_all (flags l) (queue g)
    (ain_init_member_functions image (output_encoding g))) as Hall.
  destruct (run_edits (flags l) (queue g)
    (ain_init_member_functions image (output_encoding g))) as [k [image'|]];
    simpl in *.
  - rewrite (Hall image' eq_refl), firstn_all.
    rewrite write_ain_file_spec, !add_log_app. done.
  - by rewrite add_log_app.
Qed.

Lemma open_container_new l g :
  open_container l [] g
  = (add_log g [EAinNew (major_version l) (minor_version l)],
     Done (ain_new (major_version l) (minor_version l))).
Proof. reflexivity. Qed.

Lemma open_container_path l path rest g :
  open_container l (path :: rest) g
  = (add_log g [EAinOpen path],
     match ain_open path with
     | inr image => Done image
     | inl err =>
         Fatal (AliceError ("Failed to open ain file: " +:+ ain_strerror err))
     end).
Proof.
  unfold open_container, bind, emit. by destruct (ain_open path).
Qed.

Lemma open_container_spec l args g g1 image :
  open_container l args g = (g1, Done image) →
  ∃ e, g1 = add_log g [e] ∧ is_image_event e = true ∧ is_edit e = false.
Proof.
  destruct args as [|path rest].
  - rewrite open_container_new. intros [= <- _]. by eexists.
  - rewrite open_container_path. intros [= <- _]. by eexists.
Qed.

Lemma command_ain_edit_unfold opts args g l :
  command_line opts args globals0 = (g, Done l) →
  command_ain_edit opts args globals0
  = match project_file l with
    | Some project => project_mode project l g
    | None =>
        match open_container l args g with
        | (g1, Done image) => edit_and_write l image g1
        | (g1, Fatal e) => (g1, Fatal e)
        end
    end.
Proof.
  intros Hcl. unfold command_ain_edit. unfold bind at 1. rewrite Hcl.
  destruct (project_file l); [done|]. unfold bind.
  by destruct (open_container l args g) as [g1 [image|e]].
Qed.

Lemma project_mode_spec project l g :
  wf g →
  project_mode project l g
  = (add_log g
       (warning_if_queued (queue g) project_warning
        ++ [EPjeBuild project (major_version l) (minor_version l)]),
     if pje_build project (major_version l) (minor_version l)
     then Done 0 else Fatal CollaboratorExit).
Proof.
  intros Hwf. unfold project_mode. unfold bind at 1.
  rewrite queued_warning by done. unfold bind, emit.
  rewrite add_log_app.
  by destruct (pje_build project (major_version l) (minor_version l)).
Qed.

End pipeline_facts.

(** ** The run of [command_ain_edit] *)

Section run_statements.
Context {C : Collaborators}.
Implicit Types (g : globals) (l : locals) (opts : list (Z * string))
  (args : list string) (image : ain).

Lemma version_option_run before s after args g l :
  read_options before globals0 = (g, Done l) →
  command_ain_edit (before ++ (LOPT_AIN_VERSION, s) :: after) args globals0
  = match handle_option LOPT_AIN_VERSION s l g with
    | (g', Fatal e) => (g', Fatal e)
    | (g', Done l') =>
        (l'' ←ₘ (l'' ←ₘ option_loop after l' ;;
                 (if decide (Z.of_nat (length args) > 1)
                  then USAGE_ERROR "Too many arguments." else ret tt) ;;ₘ
                 ret l'') ;;
         match project_file l'' with
         | Some project => project_mode project l''
         | None => image ←ₘ open_container l'' args ;; edit_and_write l'' image
         end) g'
    end.
Proof.
  intros Hbefore. unfold command_ain_edit, command_line.
  unfold bind at 1 2. rewrite read_options_app. unfold bind at 1.
  rewrite Hbefore. cbn [option_loop]. unfold bind at 1.
  destruct (handle_option LOPT_AIN_VERSION s l g) as [g' [l'|e]]; [|done].
  unfold bind. by destruct (option_loop after l' g') as [g2 [l2|e2]].
Qed.

(** C2.  A version option that parses to a major number outside 4..14
    ends the run with the unsupported-version error, which is not the
    parse error, the log holding nothing but the start-up event: no image
    was created or opened.  A version option that parses to a major
    number inside 4..14 is accepted, whatever its minor number, and
    records exactly that version; with no positional argument and no
    project file, when the options after it raise no error and none of
    them is a version option, the run creates the image with [ain_new] at
    exactly that major and minor number and goes on with that image.
    Conversely the version of an accepted command line is that of its
    last version option and lies in 4..14. *)
Theorem version_range_enforced :
  (∀ before s after args g l major minor,
     read_options before globals0 = (g, Done l) →
     parse_version (version_text s) = Returns (Some (major, minor)) →
     major < 4 ∨ 14 < major →
     command_ain_edit (before ++ (LOPT_AIN_VERSION, s) :: after) args globals0
     = (g, Fatal (AliceError "Invalid AIN version (4-14 supported)"))
     ∧ log g = [EInitializeInstructions])
  ∧ (∀ before s after args g l,
       read_options before globals0 = (g, Done l) →
       parse_version (version_text s) = Returns None →
       command_ain_edit (before ++ (LOPT_AIN_VERSION, s) :: after) args globals0
       = (g, Fatal (AliceError "Invalid AIN version (parse error)")))
  ∧ AliceError "Invalid AIN version (4-14 supported)"
    ≠ AliceError "Invalid AIN version (parse error)"
  ∧ (∀ before s after g l major minor,
       command_line (before ++ (LOPT_AIN_VERSION, s) :: after) [] globals0
       = (g, Done l) →
       Forall (λ o, ¬ is_version_option o) after →
       parse_version (version_text s) = Returns (Some (major, minor)) →
       project_file l = None →
       4 ≤ major ≤ 14
       ∧ command_ain_edit (before ++ (LOPT_AIN_VERSION, s) :: after) [] globals0
         = edit_and_write l (ain_new major minor)
             (add_log g [EAinNew major minor]))
  ∧ (∀ s l g major minor,
       parse_version (version_text s) = Returns (Some (major, minor)) →
       4 ≤ major ≤ 14 →
       handle_option LOPT_AIN_VERSION s l g
       = (g, Done (Locals (project_file l) (output_file l) major minor
                          (transcode l) (flags l))))
  ∧ (∀ before s after g l g' l' major minor,
       read_options before globals0 = (g, Done l) →
       parse_version (version_text s) = Returns (Some (major, minor)) →
       4 ≤ major ≤ 14 →
       option_loop after
         (Locals (project_file l) (output_file l) major minor
                 (transcode l) (flags l)) g
       = (g', Done l') →
       Forall (λ o, ¬ is_version_option o) after →
       project_file l' = None →
       command_ain_edit (before ++ (LOPT_AIN_VERSION, s) :: after) [] globals0
       = edit_and_write l' (ain_new major minor)
           (add_log g' [EAinNew major minor])).
Proof.
  assert (Haccept : ∀ s l g major minor,
    parse_version (version_text s) = Returns (Some (major, minor)) →
    4 ≤ major ≤ 14 →
    handle_option LOPT_AIN_VERSION s l g
    = (g, Done (Locals (project_file l) (output_file l) major minor
                       (transcode l) (flags l)))).
  { intros s l g major minor Hparse Hrange.
    rewrite handle_option_version, Hparse.
    assert ((major <? 4) || (major >? 14) = false) as ->; [|done].
    apply orb_false_iff. lia. }
  split; [|split; [|split; [done|split; [|split; [exact Haccept|]]]]];
    [| | |intros before s after g l g' l' major minor
            Hbefore Hparse Hrange Hloop Hafter Hproject].
  4: { rewrite (version_option_run before s after [] g l Hbefore).
       rewrite (Haccept _ _ _ _ _ Hparse Hrange).
       unfold bind. rewrite Hloop. case_decide; [simpl in *; lia|].
       cbn [ret]. rewrite Hproject, open_container_new.
       apply read_options_spec in Hbefore as (_ & Hwf & _).
       destruct (option_loop_spec after
         (Locals (project_file l) (output_file l) major minor
                 (transcode l) (flags l)) g Hwf)
         as (g2 & r2 & Heq & _ & _ & Hr2).
       rewrite Hloop in Heq. injection Heq as <- <-.
       destruct Hr2 as (_ & _ & Hversion & _).
       destruct (Hversion Hafter) as [-> ->]. done. }
  - intros before s after args g l major minor Hbefore Hparse Hrange.
    rewrite (version_option_run before s after args g l Hbefore).
    rewrite handle_option_version, Hparse.
    assert ((major <? 4) || (major >? 14) = true) as ->.
    { apply orb_true_iff. lia. }
    split; [done|]. by apply read_options_spec in Hbefore as (? & _).
  - intros before s after args g l Hbefore Hparse.
    rewrite (version_option_run before s after args g l Hbefore).
    by rewrite handle_option_version, Hparse.
  - intros before s after g l major minor Hcl Hafter Hparse Hproject.
    destruct (command_line_Done _ _ _ _ Hcl) as [Hread _].
    destruct (read_options_last_version _ _ _ _ _ _ _ Hread Hafter Hparse)
      as (Hmajor & Hminor & Hrange).
    split; [done|].
    rewrite (command_ain_edit_unfold _ _ _ _ Hcl), Hproject.
    by rewrite open_container_new, Hmajor, Hminor.
Qed.

Lemma command_ain_edit_project opts args g l project :
  command_line opts args globals0 = (g, Done l) →
  project_file l = Some project →
  command_ain_edit opts args globals0
  = (add_log g
       (warning_if_queued (requests_of opts) project_warning
        ++ [EPjeBuild project (major_version l) (minor_version l)]),
     if pje_build project (major_version l) (minor_version l)
     then Done 0 else Fatal CollaboratorExit)
  ∧ log g = [EInitializeInstructions].
Proof.
  intros Hcl Hproject.
  destruct (command_line_spec _ _ _ _ Hcl) as (Hlog & Hwf & Hq & _).
  rewrite (command_ain_edit_unfold _ _ _ _ Hcl), Hproject.
  by rewrite project_mode_spec, Hq.
Qed.

(** C5.  When the accepted command line gave a project file, the run is:
    the warning about ignored input files if at least one request was
    queued, then the project builder called with the project file and the
    requested major and minor version, then return 0 (if the builder
    returns).  Nothing of the open, edit, transcode and write steps
    happens, and no queued request is applied. *)
Theorem project_mode_bypasses_pipeline opts args g l project :
  command_line opts args globals0 = (g, Done l) →
  project_file l = Some project →
  command_ain_edit opts args globals0
  = (add_log g
       (warning_if_queued (requests_of opts) project_warning
        ++ [EPjeBuild project (major_version l) (minor_version l)]),
     if pje_build project (major_version l) (minor_version l)
     then Done 0 else Fatal CollaboratorExit)
  ∧ Forall (λ e, is_pipeline_event e = false)
           (log (command_ain_edit opts args globals0).1).
Proof.
  intros Hcl Hproject.
  destruct (command_ain_edit_project _ _ _ _ _ Hcl Hproject) as [Hrun Hlog].
  split; [done|]. rewrite Hrun. cbn [fst add_log log]. rewrite Hlog.
  destruct (requests_of opts); repeat constructor.
Qed.

(** C9.  With a project file and the transcode flag both given, the
    project builder runs and the run returns; no transcoding takes place,
    and the only warning there can be is the one about ignored input
    files, given only when a request was queued. *)
Theorem project_precedes_transcode opts args g l project :
  command_line opts args globals0 = (g, Done l) →
  project_file l = Some project →
  transcode l = true →
  log (command_ain_edit opts args globals0).1
  = [EInitializeInstructions]
    ++ warning_if_queued (requests_of opts) project_warning
    ++ [EPjeBuild project (major_version l) (minor_version l)]
  ∧ (command_ain_edit opts args globals0).2
    = (if pje_build project (major_version l) (minor_version l)
       then Done 0 else Fatal CollaboratorExit)
  ∧ (∀ from to,
       ETranscode from to ∉ log (command_ain_edit opts args globals0).1)
  ∧ (∀ msg,
       EWarning msg ∈ log (command_ain_edit opts args globals0).1 →
       msg = project_warning ∧ requests_of opts ≠ []).
Proof.
  intros Hcl Hproject _.
  destruct (command_ain_edit_project _ _ _ _ _ Hcl Hproject) as [-> Hlog].
  cbn [fst snd add_log log]. rewrite Hlog.
  split; [done|]. split; [done|]. split.
  - intros from to. destruct (requests_of opts); simpl;
      rewrite !not_elem_of_cons; repeat split; try done; apply not_elem_of_nil.
  - intros msg Hin. destruct (requests_of opts) as [|r q]; simpl in Hin.
    + apply elem_of_cons in Hin as [?|Hin]; [done|].
      apply elem_of_cons in Hin as [?|Hin]; [done|].
      by apply elem_of_nil in Hin.
    + apply elem_of_cons in Hin as [?|Hin]; [done|].
      apply elem_of_cons in Hin as [[= ->]|Hin]; [done|].
      apply elem_of_cons in Hin as [?|Hin]; [done|].
      by apply elem_of_nil in Hin.
Qed.

(** An event is none of those in a list built from explicit events and
    the calls of the dispatcher. *)
Ltac absent :=
  let H := fresh "Hin" in
  intros H;
  repeat first
    [ apply elem_of_nil in H; contradiction
    | apply elem_of_cons in H as [H|H]; [discriminate H|]
    | apply elem_of_app in H as [H|H]
    | apply list_elem_of_fmap in H as ([[] ?] & H & _); discriminate H ].

Lemma write_events_not_edit g output image :
  Forall (λ e, is_edit e = false) (write_events g output image).
Proof.
  unfold write_events.
  destruct (sys_silent g), (ain_write output image); repeat constructor.
Qed.

Lemma write_events_written g output image p i :
  EAinWrite p i ∈ write_events g output image → p = output ∧ i = image.
Proof.
  unfold write_events. intros Hin.
  destruct (sys_silent g), (ain_write output image); simpl in Hin;
    repeat (apply elem_of_cons in Hin as [Hin|Hin]; [by simplify_eq|]);
    by apply elem_of_nil in Hin.
Qed.

Lemma edit_events_not_write asm_flags (q : list input) p i :
  EAinWrite p i ∉ (edit_event asm_flags <$> q).
Proof.
  intros ([t f] & Heq & _)%list_elem_of_fmap. by destruct t.
Qed.

(** C3.  In a run that holds an image (the command line was accepted, no
    project file, the container created or opened) with the transcode
    flag set and at least one request queued: after the member-function
    fix-up the warning about ignored input files is given, the image is
    transcoded from CP932 to the requested encoding, and that image, with
    nothing else done to it, goes to the write step.  No request is
    dispatched. *)
Theorem transcode_excludes_edits opts args g l image g1 :
  command_line opts args globals0 = (g, Done l) →
  project_file l = None →
  open_container l args g = (g1, Done image) →
  transcode l = true →
  requests_of opts ≠ [] →
  command_ain_edit opts args globals0
  = (add_log g1
       ([EInitMemberFunctions; EWarning transcode_warning;
         ETranscode "CP932" (output_encoding g)]
        ++ write_events g (output_path l)
             (ain_transcode "CP932" (output_encoding g)
                (ain_init_member_functions image (output_encoding g)))),
     write_result (output_path l)
       (ain_transcode "CP932" (output_encoding g)
          (ain_init_member_functions image (output_encoding g))))
  ∧ Forall (λ e, is_edit e = false)
           (log (command_ain_edit opts args globals0).1).
Proof.
  intros Hcl Hproject Hopen Ht Hq.
  destruct (command_line_spec _ _ _ _ Hcl) as (Hlog & Hwf & Hqueue & _ & Henc & _).
  unfold encodings_ok in Henc. rewrite Ht in Henc.
  rewrite (command_ain_edit_unfold _ _ _ _ Hcl), Hproject, Hopen.
  destruct (open_container_spec _ _ _ _ _ Hopen) as (e & -> & _ & He).
  rewrite edit_and_write_transcode by done.
  change (queue (add_log g [e])) with (queue g).
  change (input_encoding (add_log g [e])) with (input_encoding g).
  change (output_encoding (add_log g [e])) with (output_encoding g).
  rewrite Hqueue, Henc.
  destruct (requests_of opts) as [|r q]; [done|]. split; [done|].
  cbn [fst add_log log warning_if_queued app]. rewrite Hlog.
  repeat (apply Forall_cons; split; [done|]).
  apply write_events_not_edit.
Qed.

(** C4, as the code has it.  With the transcode flag set and no
    positional argument the run does not fail: a fresh image is created
    at the requested version, fixed up, transcoded and written, and the
    run returns 0 once the writer has returned. *)
Theorem transcode_without_container opts g l :
  command_line opts [] globals0 = (g, Done l) →
  project_file l = None →
  transcode l = true →
  command_ain_edit opts [] globals0
  = (add_log g
       ([EAinNew (major_version l) (minor_version l); EInitMemberFunctions]
        ++ warning_if_queued (requests_of opts) transcode_warning
        ++ [ETranscode "CP932" (output_encoding g)]
        ++ write_events g (output_path l)
             (ain_transcode "CP932" (output_encoding g)
                (ain_init_member_functions
                   (ain_new (major_version l) (minor_version l))
                   (output_encoding g)))),
     write_result (output_path l)
       (ain_transcode "CP932" (output_encoding g)
          (ain_init_member_functions
             (ain_new (major_version l) (minor_version l))
             (output_encoding g))))
  ∧ (ain_write (output_path l)
       (ain_transcode "CP932" (output_encoding g)
          (ain_init_member_functions
             (ain_new (major_version l) (minor_version l))
             (output_encoding g))) = true →
     (command_ain_edit opts [] globals0).2 = Done 0).
Proof.
  intros Hcl Hproject Ht.
  destruct (command_line_spec _ _ _ _ Hcl) as (Hlog & Hwf & Hqueue & _ & Henc & _).
  unfold encodings_ok in Henc. rewrite Ht in Henc.
  rewrite (command_ain_edit_unfold _ _ _ _ Hcl), Hproject, open_container_new.
  rewrite edit_and_write_transcode by done.
  set (e := EAinNew (major_version l) (minor_version l)).
  change (queue (add_log g [e])) with (queue g).
  change (input_encoding (add_log g [e])) with (input_encoding g).
  change (output_encoding (add_log g [e])) with (output_encoding g).
  rewrite Hqueue, Henc, add_log_app.
  split; [done|]. unfold write_result. by intros ->.
Qed.

(** C6.  In a run that holds an image and has the transcode flag unset,
    the queue is the list of requests in the order the options gave them,
    and the dispatcher hands them, first to last and each exactly once, to
    the collaborator of their kind (code to the assembler, with the raw
    flags; source to the compiler; declarations and text to their mergers),
    each working on the image the one before left.  The write step comes
    after the last of them and gets the image they produced; when a
    collaborator ends the run, nothing is written. *)
Theorem edits_in_submission_order opts args g l image g1 :
  command_line opts args globals0 = (g, Done l) →
  project_file l = None →
  open_container l args g = (g1, Done image) →
  transcode l = false →
  queue g1 = requests_of opts
  ∧ command_ain_edit opts args globals0
    = match run_edits (flags l) (requests_of opts)
              (ain_init_member_functions image (output_encoding g)) with
      | (_, Some image') =>
          (add_log g1
             ([EInitMemberFunctions]
              ++ (edit_event (flags l) <$> requests_of opts)
              ++ write_events g (output_path l) image'),
           write_result (output_path l) image')
      | (k, None) =>
          (add_log g1
             ([EInitMemberFunctions]
              ++ (edit_event (flags l) <$> take k (requests_of opts))),
           Fatal CollaboratorExit)
      end
  ∧ (∀ p i,
       EAinWrite p i ∈ log (command_ain_edit opts args globals0).1 →
       (run_edits (flags l) (requests_of opts)
          (ain_init_member_functions image (output_encoding g))).2 = Some i).
Proof.
  intros Hcl Hproject Hopen Ht.
  destruct (command_line_spec _ _ _ _ Hcl) as (Hlog & Hwf & Hqueue & _).
  destruct (open_container_spec _ _ _ _ _ Hopen) as (e & -> & He & _).
  change (queue (add_log g [e])) with (queue g).
  split; [done|].
  rewrite (command_ain_edit_unfold _ _ _ _ Hcl), Hproject, Hopen.
  rewrite edit_and_write_edits by done.
  change (queue (add_log g [e])) with (queue g).
  change (output_encoding (add_log g [e])) with (output_encoding g).
  rewrite Hqueue.
  destruct (run_edits (flags l) (requests_of opts)
    (ain_init_member_functions image (output_encoding g))) as [k [image'|]].
  - split; [done|]. intros p i. cbn [fst snd add_log log]. rewrite Hlog.
    rewrite !elem_of_app, !elem_of_cons, !elem_of_nil.
    intros [[[?|[]]|[<-|[]]]|[[?|[]]|[Hin|Hin]]]; try done.
    + by apply edit_events_not_write in Hin.
    + apply write_events_written in Hin as [_ ->]. done.
  - split; [done|]. intros p i. cbn [fst snd add_log log]. rewrite Hlog.
    rewrite !elem_of_app, !elem_of_cons, !elem_of_nil.
    intros [[[?|[]]|[<-|[]]]|[[?|[]]|Hin]]; try done.
    by apply edit_events_not_write in Hin.
Qed.

(** C8.  With a positional argument (and no project file) the container
    is opened with the reader, and the run goes on with the image the
    reader returned: the requested major and minor version play no part
    and [ain_new] is not called.  When the reader fails the run ends with
    "Failed to open ain file: " followed by the reader's message, and
    nothing is written. *)
Theorem open_ignores_requested_version opts path rest g l :
  command_line opts (path :: rest) globals0 = (g, Done l) →
  project_file l = None →
  command_ain_edit opts (path :: rest) globals0
  = match ain_open path with
    | inr image => edit_and_write l image (add_log g [EAinOpen path])
    | inl err =>
        (add_log g [EAinOpen path],
         Fatal (AliceError ("Failed to open ain file: " +:+ ain_strerror err)))
    end
  ∧ (∀ major minor,
       open_container
         (Locals (project_file l) (output_file l) major minor
                 (transcode l) (flags l)) (path :: rest) g
       = open_container l (path :: rest) g)
  ∧ (∀ major minor,
       EAinNew major minor
       ∉ log (command_ain_edit opts (path :: rest) globals0).1)
  ∧ (∀ err p i,
       ain_open path = inl err →
       EAinWrite p i ∉ log (command_ain_edit opts (path :: rest) globals0).1).
Proof.
  intros Hcl Hproject.
  destruct (command_line_spec _ _ _ _ Hcl) as (Hlog & Hwf & Hqueue & _).
  rewrite (command_ain_edit_unfold _ _ _ _ Hcl), Hproject, open_container_path.
  split; [by destruct (ain_open path)|].
  split; [intros; apply open_container_path|]. split.
  - intros major minor. destruct (ain_open path) as [err|image].
    + cbn [fst add_log log]. rewrite Hlog. absent.
    + destruct (transcode l) eqn:Ht.
      * rewrite edit_and_write_transcode by done.
        cbn [fst add_log log]. rewrite Hlog. unfold write_events.
        destruct (queue _), (sys_silent _), (ain_write _ _); absent.
      * rewrite edit_and_write_edits by done.
        destruct (run_edits _ _ _) as [k [image'|]];
          cbn [fst add_log log]; rewrite Hlog;
          [unfold write_events; destruct (sys_silent _), (ain_write _ _)|];
          absent.
  - intros err p i ->. cbn [fst add_log log]. rewrite Hlog. absent.
Qed.

End run_statements.

(** ** The statements at work on concrete command lines *)


Lemma version_range_enforced_witness :
  (command_ain_edit (C := Simple.collaborators)
     ([(LOPT_CODE, "a.jam")] ++ (LOPT_AIN_VERSION, "3.1") :: [(LOPT_RAW, "")])
     [] globals0).2
  = Fatal (AliceError "Invalid AIN version (4-14 supported)")
  ∧ (command_ain_edit (C := Simple.collaborators)
       ([(LOPT_CODE, "a.jam")] ++ (LOPT_AIN_VERSION, "1.2.3") :: [])
       [] globals0).2
    = Fatal (AliceError "Invalid AIN version (parse error)")
  ∧ log (command_ain_edit (C := Simple.collaborators)
           ([(LOPT_CODE, "a.jam")] ++ (LOPT_AIN_VERSION, "6.1") :: [(LOPT_RAW, "")])
           [] globals0).1
    = [EInitializeInstructions; EAinNew 6 1; EInitMemberFunctions;
       EAssemble "a.jam" 1; ENotice "Writing AIN file...";
       EAinWrite (C := Simple.collaborators) "out.ain"
         (Simple.Image (6, 1) ["init"; "jam a.jam"]);
       EAinFree]
  ∧ log (command_ain_edit (C := Simple.collaborators)
           ([] ++ (LOPT_AIN_VERSION, "4") :: []) [] globals0).1
    = [EInitializeInstructions; EAinNew 4 0; EInitMemberFunctions;
       ENotice "Writing AIN file...";
       EAinWrite (C := Simple.collaborators) "out.ain"
         (Simple.Image (4, 0) ["init"]);
       EAinFree]
  ∧ log (command_ain_edit (C := Simple.collaborators)
           ([] ++ (LOPT_AIN_VERSION, "14.99") :: [(chr "o", "new.ain")])
           [] globals0).1
    = [EInitializeInstructions; EAinNew 14 99; EInitMemberFunctions;
       ENotice "Writing AIN file...";
       EAinWrite (C := Simple.collaborators) "new.ain"
         (Simple.Image (14, 99) ["init"]);
       EAinFree].
Proof.
  destruct (version_range_enforced (C := Simple.collaborators))
    as (H1 & H2 & _ & H4 & _ & H6).
  split; [|split; [|split; [|split]]].
  - edestruct H1 with (before := [(LOPT_CODE, "a.jam")]) (s := "3.1")
      (after := [(LOPT_RAW, "")]) (args := @nil string) (major := 3) (minor := 1)
      as [Hrun _]; [reflexivity|reflexivity|left; lia|].
    by rewrite Hrun.
  - erewrite (H2 [(LOPT_CODE, "a.jam")] "1.2.3" [] []);
      [reflexivity|reflexivity|reflexivity].
  - edestruct H4 with (before := [(LOPT_CODE, "a.jam")]) (s := "6.1")
      (after := [(LOPT_RAW, "")]) (major := 6) (minor := 1)
      as [_ Hrun]; [reflexivity|repeat constructor; discriminate
                    |reflexivity|reflexivity|].
    rewrite Hrun. reflexivity.
  - rewrite (H6 [] "4" [] _ _ _ _ 4 0 eq_refl eq_refl ltac:(lia) eq_refl
               ltac:(constructor) eq_refl).
    reflexivity.
  - rewrite (H6 [] "14.99" [(chr "o", "new.ain")] _ _ _ _ 14 99
               eq_refl eq_refl ltac:(lia) eq_refl
               ltac:(repeat constructor; discriminate) eq_refl).
    reflexivity.
Defined.

Lemma project_mode_bypasses_pipeline_witness :
  command_ain_edit (C := Simple.collaborators)
    [(LOPT_CODE, "a.jam"); (LOPT_AIN_VERSION, "6"); (chr "p", "game.pje")]
    ["game.ain"] globals0
  = (add_log (command_line (C := Simple.collaborators)
                [(LOPT_CODE, "a.jam"); (LOPT_AIN_VERSION, "6");
                 (chr "p", "game.pje")] ["game.ain"] globals0).1
       [EWarning project_warning; EPjeBuild "game.pje" 6 0],
     Done 0).
Proof.
  edestruct (project_mode_bypasses_pipeline (C := Simple.collaborators)
    [(LOPT_CODE, "a.jam"); (LOPT_AIN_VERSION, "6"); (chr "p", "game.pje")]
    ["game.ain"]) as [Hrun _]; [reflexivity|reflexivity|].
  exact Hrun.
Defined.

Lemma project_precedes_transcode_witness :
  log (command_ain_edit (C := Simple.collaborators)
         [(LOPT_TRANSCODE, "UTF-8"); (LOPT_PROJECT, "game.pje")]
         [] globals0).1
  = [EInitializeInstructions; EPjeBuild "game.pje" 4 0].
Proof.
  edestruct (project_precedes_transcode (C := Simple.collaborators)
    [(LOPT_TRANSCODE, "UTF-8"); (LOPT_PROJECT, "game.pje")] [])
    as [Hlog _]; [reflexivity|reflexivity|reflexivity|].
  exact Hlog.
Defined.

Lemma transcode_excludes_edits_witness :
  log (command_ain_edit (C := Simple.collaborators)
         [(LOPT_TRANSCODE, "UTF-8"); (LOPT_CODE, "a.jam")]
         ["game.ain"] globals0).1
  = [EInitializeInstructions; EAinOpen "game.ain"; EInitMemberFunctions;
     EWarning transcode_warning; ETranscode "CP932" "UTF-8";
     ENotice "Writing AIN file...";
     EAinWrite (C := Simple.collaborators) "out.ain"
         (Simple.Image (12, 0)
          ["open game.ain"; "init"; "transcode CP932 UTF-8"]);
     EAinFree].
Proof.
  edestruct (transcode_excludes_edits (C := Simple.collaborators)
    [(LOPT_TRANSCODE, "UTF-8"); (LOPT_CODE, "a.jam")] ["game.ain"])
    as [Hrun _]; [reflexivity|reflexivity|reflexivity|reflexivity|discriminate|].
  rewrite Hrun. reflexivity.
Defined.

(** C4 as stated fails: with collaborators that do not fail, the run
    with --transcode UTF-8 and no container path returns 0, having
    transcoded and written a fresh 4.0 image. *)
Lemma transcode_fresh_image_succeeds :
  (command_ain_edit (C := Simple.collaborators)
     [(LOPT_TRANSCODE, "UTF-8")] [] globals0).2 = Done 0
  ∧ log (command_ain_edit (C := Simple.collaborators)
           [(LOPT_TRANSCODE, "UTF-8")] [] globals0).1
    = [EInitializeInstructions; EAinNew 4 0; EInitMemberFunctions;
       ETranscode "CP932" "UTF-8"; ENotice "Writing AIN file...";
       EAinWrite (C := Simple.collaborators) "out.ain"
         (Simple.Image (4, 0) ["init"; "transcode CP932 UTF-8"]);
       EAinFree].
Proof. split; reflexivity. Qed.

Lemma transcode_without_container_witness :
  (command_ain_edit (C := Simple.collaborators)
     [(LOPT_AIN_VERSION, "12"); (LOPT_TRANSCODE, "UTF-8"); (chr "o", "new.ain")]
     [] globals0).2
  = Done 0.
Proof.
  edestruct (transcode_without_container (C := Simple.collaborators)
    [(LOPT_AIN_VERSION, "12"); (LOPT_TRANSCODE, "UTF-8"); (chr "o", "new.ain")])
    as [_ Hdone]; [reflexivity|reflexivity|reflexivity|].
  apply Hdone. reflexivity.
Defined.

Lemma edits_in_submission_order_witness :
  log (command_ain_edit (C := Simple.collaborators)
         [(chr "j", "types.json"); (LOPT_RAW, ""); (chr "c", "main.jam");
          (LOPT_JAF, "extra.jaf"); (chr "t", "text.txt");
          (chr "j", "types.json")]
         ["game.ain"] globals0).1
  = [EInitializeInstructions; EAinOpen "game.ain"; EInitMemberFunctions;
     EReadDeclarations "types.json"; EAssemble "main.jam" 1;
     EJafBuild "extra.jaf"; EReadText "text.txt";
     EReadDeclarations "types.json"; ENotice "Writing AIN file...";
     EAinWrite (C := Simple.collaborators) "out.ain"
         (Simple.Image (12, 0)
          ["open game.ain"; "init"; "json types.json"; "jam main.jam";
           "jaf extra.jaf"; "text text.txt"; "json types.json"]);
     EAinFree].
Proof.
  set (opts := [(chr "j", "types.json"); (LOPT_RAW, ""); (chr "c", "main.jam");
                (LOPT_JAF, "extra.jaf"); (chr "t", "text.txt");
                (chr "j", "types.json")]).
  assert (Hcl : command_line (C := Simple.collaborators)
                  opts ["game.ain"] globals0
                = ((command_line (C := Simple.collaborators)
                      opts ["game.ain"] globals0).1,
                   Done (Locals None None 4 0 false 1)))
    by (vm_compute; reflexivity).
  destruct (edits_in_submission_order (C := Simple.collaborators) opts ["game.ain"] _ _
              (Simple.Image (12, 0) ["open game.ain"]) _
              Hcl eq_refl eq_refl eq_refl) as (_ & Hrun & _).
  rewrite Hrun. vm_compute. reflexivity.
Defined.

Lemma open_ignores_requested_version_witness :
  log (command_ain_edit (C := Simple.collaborators)
         [(LOPT_AIN_VERSION, "6.1")] ["game.ain"] globals0).1
  = [EInitializeInstructions; EAinOpen "game.ain"; EInitMemberFunctions;
     ENotice "Writing AIN file...";
     EAinWrite (C := Simple.collaborators) "out.ain"
         (Simple.Image (12, 0) ["open game.ain"; "init"]);
     EAinFree]
  ∧ command_ain_edit (C := Simple.collaborators)
      [(LOPT_AIN_VERSION, "6.1")] ["missing.ain"] globals0
    = (add_log (command_line (C := Simple.collaborators)
                  [(LOPT_AIN_VERSION, "6.1")] ["missing.ain"] globals0).1
         [EAinOpen "missing.ain"],
       Fatal (AliceError "Failed to open ain file: No such file or directory")).
Proof.
  split.
  - edestruct (open_ignores_requested_version (C := Simple.collaborators)
      [(LOPT_AIN_VERSION, "6.1")] "game.ain" []) as (Hrun & _);
      [reflexivity|reflexivity|].
    rewrite Hrun. reflexivity.
  - edestruct (open_ignores_requested_version (C := Simple.collaborators)
      [(LOPT_AIN_VERSION, "6.1")] "missing.ain" []) as (Hrun & _);
      [reflexivity|reflexivity|].
    exact Hrun.
Defined.

Lemma push_input_capacity_witness :
  (push_all (C := Simple.collaborators)
     (replicate 256 (Input IN_CODE "a.jam")) globals0).2 = Done tt
  ∧ (push_all (C := Simple.collaborators)
       (replicate 257 (Input IN_CODE "a.jam")) globals0).2
    = Fatal (AliceError "Too many inputs")
  ∧ push_input IN_TEXT "b.txt"
      (push_all (C := Simple.collaborators)
         (replicate 256 (Input IN_CODE "a.jam")) globals0).1
    = ((push_all (C := Simple.collaborators)
          (replicate 256 (Input IN_CODE "a.jam")) globals0).1,
       Fatal (AliceError "Too many inputs")).
Proof.
  destruct (push_input_capacity (C := Simple.collaborators)
              (replicate 256 (Input IN_CODE "a.jam")))
    as (H1 & _ & _ & H4 & H5).
  destruct (push_input_capacity (C := Simple.collaborators)
              (replicate 257 (Input IN_CODE "a.jam")))
    as (_ & _ & _ & H4' & _).
  split; [|split].
  - rewrite H4. reflexivity.
  - rewrite H4'. reflexivity.
  - apply H5. rewrite H1. vm_compute. discriminate.
Defined.

(** ** Further properties of [parse_version] *)

Section version_range.
Implicit Types (s : list ascii) (c : ascii).

Lemma digit_value_bound c : isdigit c = true → 0 ≤ digit_value c ≤ 9.
Proof.
  unfold isdigit, digit_value. intros [H1 H2]%andb_true_iff.
  apply Nat.leb_le in H1, H2. lia.
Qed.

Lemma atoi_digits_short s :
  ((length s ≤ 1)%nat → 0 ≤ atoi_digits 0 s ≤ 9)
  ∧ ((length s ≤ 2)%nat → 0 ≤ atoi_digits 0 s ≤ 99).
Proof.
  destruct s as [|a [|b [|d s]]]; simpl; (split; [try lia|]); try lia.
  - intros _. destruct (isdigit a) eqn:Ha; [|lia].
    pose proof (digit_value_bound a Ha). lia.
  - intros _. destruct (isdigit a) eqn:Ha; [|lia].
    pose proof (digit_value_bound a Ha). lia.
  - intros _. destruct (isdigit a) eqn:Ha; [|lia].
    pose proof (digit_value_bound a Ha).
    destruct (isdigit b) eqn:Hb; [|lia].
    pose proof (digit_value_bound b Hb). lia.
Qed.

Lemma skip_spaces_length s : (length (skip_spaces s) ≤ length s)%nat.
Proof.
  induction s as [|c s IH]; simpl; [lia|].
  destruct (isspace c); simpl; lia.
Qed.

Lemma atoi_short s : (length s ≤ 2)%nat → -9 ≤ atoi s ≤ 99.
Proof.
  intros Hlen. unfold atoi. pose proof (skip_spaces_length s) as Hskip.
  destruct (skip_spaces s) as [|c r]; [lia|]. simpl in Hskip.
  destruct (atoi_digits_short r) as [Hr _].
  destruct (atoi_digits_short (c :: r)) as [_ Hcr].
  repeat case_decide.
  - specialize (Hr ltac:(lia)). lia.
  - specialize (Hr ltac:(lia)). lia.
  - specialize (Hcr ltac:(simpl; lia)). lia.
Qed.

(** X1.  Whatever the string, a version that parses has both numbers between
    -9 and 99: [atoi] only ever sees two characters, so it cannot
    overflow, but a sign is read as one. *)
Theorem parse_version_range (str : list ascii) (major minor : Z) :
  parse_version str = Returns (Some (major, minor)) →
  -9 ≤ major ≤ 99 ∧ -9 ≤ minor ≤ 99.
Proof.
  destruct (strchr str "."%char) as [k|] eqn:Hdot.
  - rewrite (parse_version_dot str k Hdot).
    case_decide as Hk; [done|]. case_decide as Hr; [done|].
    intros [= <- <-]. split; apply atoi_short.
    + rewrite length_take. lia.
    + rewrite chars_length. lia.
  - rewrite (parse_version_no_dot str Hdot).
    case_decide as Hs; [done|]. intros [= <- <-]. split; [|lia].
    apply atoi_short. rewrite chars_length. lia.
Qed.

Lemma parse_version_range_witness :
  parse_version (version_text "-7.+3") = Returns (Some (-7, 3))
  ∧ (-9 ≤ -7 ≤ 99 ∧ -9 ≤ 3 ≤ 99).
Proof.
  assert (H : parse_version (version_text "-7.+3") = Returns (Some (-7, 3)))
    by reflexivity.
  split; [exact H|]. exact (parse_version_range _ _ _ H).
Defined.

End version_range.

(** ** The option table and the switch *)

Section option_table.
Context {C : Collaborators}.
Implicit Types (g : globals) (l : locals) (opts : list (Z * string)).

Ltac switch_on c :=
  unfold handle_option, is_project, is_output, is_transcode, is_raw,
    is_silent, is_version, is_case, chr, LOPT_PROJECT, LOPT_CODE,
    LOPT_JAF, LOPT_JSON, LOPT_TEXT, LOPT_TRANSCODE, LOPT_OUTPUT, LOPT_RAW,
    LOPT_AIN_VERSION, LOPT_SILENT in *;
  cbn [fst snd nat_of_ascii] in *;
  repeat match goal with
    | |- context [Z.eqb c ?k] =>
        destruct (Z.eqb_spec c k) as [->|?]; cbn [orb]
    end.

(** X11.  A short letter and the long form of its row take the same branch of
    the switch, and a row declared without argument never looks at
    [optarg]. *)
Theorem short_option_is_alias (o : command_option) :
  o ∈ cmd_ain_edit_options →
  (∀ s a l g, opt_short o = Some s →
              handle_option (chr s) a l g = handle_option (opt_val o) a l g)
  ∧ (opt_has_arg o = false →
     ∀ a a' l g,
       handle_option (opt_val o) a l g = handle_option (opt_val o) a' l g).
Proof.
  unfold cmd_ain_edit_options. intros Ho.
  repeat (apply elem_of_cons in Ho as [->|Ho];
          [split; [by intros s a l g [= <-]|by intros [=] || done]|]).
  by apply elem_of_nil in Ho.
Qed.

(** X12.  A code that is neither a value nor a short letter of the table falls
    through the switch: nothing changes. *)
Theorem unknown_option_is_ignored (c : Z) (a : string) l g :
  c ∉ table_codes → handle_option c a l g = (g, Done l).
Proof.
  unfold table_codes, cmd_ain_edit_options. cbn [mbind list_bind option_codes
    opt_val opt_short app]. rewrite !not_elem_of_cons. intros Hc.
  destruct_and!. switch_on c; try reflexivity; done.
Qed.

Lemma handle_option_settings c a l g g' l' :
  handle_option c a l g = (g', Done l') →
  project_file l' = (if is_project c then Some a else project_file l)
  ∧ output_file l' = (if is_output c then Some a else output_file l)
  ∧ transcode l' = is_transcode c || transcode l
  ∧ flags l' = (if is_raw c then Z.lor (flags l) ASM_RAW else flags l)
  ∧ sys_silent g' = is_silent c || sys_silent g
  ∧ output_encoding g' = (if is_transcode c then a else output_encoding g)
  ∧ (if is_version c
     then parse_version (version_text a)
          = Returns (Some (major_version l', minor_version l'))
          ∧ 4 ≤ major_version l' ≤ 14
     else major_version l' = major_version l
          ∧ minor_version l' = minor_version l).
Proof.
  switch_on c; cbn [orb negb].
  all: try (unfold bind, push_input, ALICE_ERROR, abort, ret;
            repeat case_decide; intros [= <- <-]; by repeat split).
  all: try (intros [= <- <-]; by repeat split).
  destruct (parse_version (version_text a)) as [|[[major minor]|]] eqn:Hp;
    try done.
  destruct ((major <? 4) || (major >? 14)) eqn:Hrange; [done|].
  apply orb_false_iff in Hrange as [? ?].
  intros [= <- <-]. simpl. repeat split; try done; lia.
Qed.

Lemma option_loop_settings opts l g g' l' :
  option_loop opts l g = (g', Done l') →
  project_file l' = or_keep (last_arg is_project opts) (project_file l)
  ∧ output_file l' = or_keep (last_arg is_output opts) (output_file l)
  ∧ transcode l' = given is_transcode opts || transcode l
  ∧ flags l' = (if given is_raw opts then Z.lor (flags l) ASM_RAW else flags l)
  ∧ sys_silent g' = given is_silent opts || sys_silent g
  ∧ output_encoding g'
    = default (output_encoding g) (last_arg is_transcode opts)
  ∧ match last_arg is_version opts with
    | Some s =>
        parse_version (version_text s)
        = Returns (Some (major_version l', minor_version l'))
        ∧ 4 ≤ major_version l' ≤ 14
    | None =>
        major_version l' = major_version l
        ∧ minor_version l' = minor_version l
    end.
Proof.
  induction opts as [|[c a] opts IH] in l, g |- *.
  - intros [= <- <-]. by repeat split.
  - cbn [option_loop]. unfold bind.
    destruct (handle_option c a l g) as [g1 [l1|e]] eqn:Hstep; [|done].
    intros Hloop. specialize (IH _ _ Hloop).
    destruct IH as (IH1 & IH2 & IH3 & IH4 & IH5 & IH6 & IH7).
    apply handle_option_settings in Hstep
      as (H1 & H2 & H3 & H4 & H5 & H6 & H7).
    unfold given in *. cbn [last_arg existsb fst snd].
    rewrite IH1, IH2, IH3, IH4, IH5, IH6, H1, H2, H3, H4, H5, H6.
    split; [by destruct (last_arg is_project opts), (is_project c)|].
    split; [by destruct (last_arg is_output opts), (is_output c)|].
    split; [by rewrite orb_assoc, (orb_comm (existsb _ _))|].
    split.
    { destruct (is_raw c), (existsb (λ o, is_raw o.1) opts); simpl; try done.
      by rewrite <- Z.lor_assoc, Z.lor_diag. }
    split; [by rewrite orb_assoc, (orb_comm (existsb _ _))|].
    split; [by destruct (last_arg is_transcode opts), (is_transcode c)|].
    destruct (last_arg is_version opts); [done|].
    destruct (is_version c); [|destruct IH7 as [-> ->]; done].
    destruct IH7 as [-> ->]. done.
Qed.

(** What an accepted command line leaves in the locals and the globals,
    read off the options. *)
Lemma command_line_settings opts args g l :
  command_line opts args globals0 = (g, Done l) →
  project_file l = last_arg is_project opts
  ∧ output_file l = last_arg is_output opts
  ∧ transcode l = given is_transcode opts
  ∧ flags l = (if given is_raw opts then ASM_RAW else 0)
  ∧ sys_silent g = given is_silent opts
  ∧ output_encoding g = default "CP932" (last_arg is_transcode opts)
  ∧ match last_arg is_version opts with
    | Some s =>
        parse_version (version_text s)
        = Returns (Some (major_version l, minor_version l))
        ∧ 4 ≤ major_version l ≤ 14
    | None => major_version l = 4 ∧ minor_version l = 0
    end.
Proof.
  intros [Hread _]%command_line_Done.
  rewrite read_options_unfold in Hread.
  apply option_loop_settings in Hread
    as (H1 & H2 & H3 & H4 & H5 & H6 & H7).
  cbn [locals0 project_file output_file transcode flags sys_silent
       output_encoding major_version minor_version] in *.
  rewrite H1, H2, H3, H4, H5, H6.
  split; [by destruct (last_arg is_project opts)|].
  split; [by destruct (last_arg is_output opts)|].
  split; [by rewrite orb_false_r|].
  split; [by destruct (given is_raw opts)|].
  split; [by rewrite orb_false_r|]. done.
Qed.

End option_table.

Lemma short_option_is_alias_witness :
  handle_option (C := Simple.collaborators) (chr "j") "types.json"
    locals0 globals0
  = handle_option (C := Simple.collaborators) LOPT_JSON "types.json"
      locals0 globals0.
Proof.
  destruct (short_option_is_alias (C := Simple.collaborators)
              (CommandOption "json" (Some "j"%char) true LOPT_JSON))
    as [Halias _].
  - apply (list_elem_of_lookup_2 _ 3). reflexivity.
  - by apply Halias.
Defined.

Lemma unknown_option_is_ignored_witness :
  handle_option (C := Simple.collaborators) (chr "x") "1" locals0 globals0
  = (globals0, Done locals0).
Proof.
  apply (unknown_option_is_ignored (C := Simple.collaborators)).
  compute_done.
Defined.


(** ** The shape of every run *)

Section run_shape.
Context {C : Collaborators}.
Implicit Types (g : globals) (l : locals) (opts : list (Z * string))
  (args : list string) (x : event).

Lemma command_line_log opts args g (r : result locals) :
  command_line opts args globals0 = (g, r) → log g = [EInitializeInstructions].
Proof.
  rewrite command_line_unfold.
  destruct (read_options opts globals0) as [g' r'] eqn:Hread.
  apply read_options_spec in Hread as [Hlog _].
  destruct r' as [l|e]; [case_decide|]; by intros [= <- _].
Qed.

Lemma open_container_image_event l args g :
  ∃ r, open_container l args g = (add_log g [image_event l args], r).
Proof.
  destruct args as [|path rest].
  - rewrite open_container_new. by eexists.
  - rewrite open_container_path. by eexists.
Qed.

(** Every run is of one of three kinds: the command line is rejected
    and only the start-up event is seen; the project builder is called;
    or the image is obtained and the pipeline runs on it. *)
Lemma run_log opts args :
  (∃ g e, command_line opts args globals0 = (g, Fatal e)
          ∧ command_ain_edit opts args globals0 = (g, Fatal e)
          ∧ log g = [EInitializeInstructions])
  ∨ (∃ g l, command_line opts args globals0 = (g, Done l)
       ∧ match project_file l with
         | Some project =>
             log (command_ain_edit opts args globals0).1
             = [EInitializeInstructions]
               ++ warning_if_queued (requests_of opts) project_warning
               ++ [EPjeBuild project (major_version l) (minor_version l)]
         | None =>
             ∃ tail,
               log (command_ain_edit opts args globals0).1
               = [EInitializeInstructions; image_event l args] ++ tail
               ∧ pipeline_tail g l (requests_of opts) tail
         end).
Proof.
  destruct (command_line opts args globals0) as [g [l|e]] eqn:Hcl.
  - right. exists g, l. split; [done|].
    destruct (command_line_spec _ _ _ _ Hcl) as (Hlog & Hwf & Hq & _ & Henc & _).
    destruct (project_file l) as [project|] eqn:Hproject.
    { destruct (command_ain_edit_project _ _ _ _ _ Hcl Hproject) as [-> _].
      cbn [fst add_log log]. by rewrite Hlog. }
    rewrite (command_ain_edit_unfold _ _ _ _ Hcl), Hproject.
    destruct (open_container_image_event l args g) as [r ->].
    destruct r as [image|e].
    + unfold encodings_ok in Henc. destruct (transcode l) eqn:Ht.
      * rewrite edit_and_write_transcode by done.
        set (e := image_event l args).
        change (queue (add_log g [e])) with (queue g).
        change (input_encoding (add_log g [e])) with (input_encoding g).
        change (output_encoding (add_log g [e])) with (output_encoding g).
        rewrite Hq, Henc. eexists. cbn [fst add_log log]. rewrite Hlog.
        split; [by rewrite <- app_assoc|]. right; left. split; [done|].
        by eexists.
      * rewrite edit_and_write_edits by done.
        set (e := image_event l args).
        change (queue (add_log g [e])) with (queue g).
        change (output_encoding (add_log g [e])) with (output_encoding g).
        rewrite Hq.
        destruct (run_edits _ _ _) as [k [image'|]];
          eexists; cbn [fst add_log log]; rewrite Hlog;
          (split; [by rewrite <- app_assoc|]).
        -- do 3 right. split; [done|]. by eexists.
        -- do 2 right. left. split; [done|]. by eexists.
    + exists []. cbn [fst add_log log]. rewrite Hlog. split; [done|]. by left.
  - left. exists g, e. split; [done|]. split.
    + unfold command_ain_edit, bind. by rewrite Hcl.
    + by apply command_line_log in Hcl.
Qed.

Lemma write_events_inv g output image x :
  x ∈ write_events g output image →
  (x = ENotice "Writing AIN file..." ∧ sys_silent g = false)
  ∨ x = EAinWrite output image
  ∨ x = EAinFree.
Proof.
  unfold write_events. intros Hin.
  destruct (sys_silent g), (ain_write output image); simpl in Hin;
    repeat (apply elem_of_cons in Hin as [->|Hin]; [by auto|]);
    by apply elem_of_nil in Hin.
Qed.

(** Where each event of a run comes from. *)
Lemma run_events opts args x :
  x ∈ log (command_ain_edit opts args globals0).1 →
  x = EInitializeInstructions
  ∨ ∃ g l, command_line opts args globals0 = (g, Done l)
     ∧ ((∃ project, project_file l = Some project
           ∧ (x = EPjeBuild project (major_version l) (minor_version l)
              ∨ (x = EWarning project_warning ∧ requests_of opts ≠ [])))
        ∨ (project_file l = None
           ∧ (x = image_event l args
              ∨ x = EInitMemberFunctions
              ∨ (transcode l = true
                 ∧ (x = ETranscode "CP932" (output_encoding g)
                    ∨ (x = EWarning transcode_warning
                       ∧ requests_of opts ≠ [])))
              ∨ (transcode l = false
                 ∧ ∃ r, r ∈ requests_of opts ∧ x = edit_event (flags l) r)
              ∨ (x = ENotice "Writing AIN file..." ∧ sys_silent g = false)
              ∨ (∃ image, x = EAinWrite (output_path l) image)
              ∨ x = EAinFree))).
Proof.
  destruct (run_log opts args) as [(g & e & _ & -> & Hlog)|(g & l & Hcl & Hrun)].
  { cbn [fst]. rewrite Hlog. intros Hin%list_elem_of_singleton. by left. }
  destruct (project_file l) as [project|] eqn:Hproject.
  - rewrite Hrun. intros Hin. apply elem_of_cons in Hin as [->|Hin]; [by left|].
    right. exists g, l. split; [done|]. left. exists project. split; [done|].
    apply elem_of_app in Hin as [Hin|Hin%list_elem_of_singleton];
      [|subst; by left].
    right. destruct (requests_of opts); simpl in Hin.
    + by apply elem_of_nil in Hin.
    + apply list_elem_of_singleton in Hin. by subst.
  - destruct Hrun as (tail & -> & Htail). intros Hin.
    apply elem_of_cons in Hin as [->|Hin]; [by left|].
    right. exists g, l. split; [done|]. right. split; [done|].
    apply elem_of_cons in Hin as [->|Hin]; [by left|].
    right.
    destruct Htail as [->|[(Ht & image & ->)|[(Ht & k & ->)|(Ht & image & ->)]]].
    + by apply elem_of_nil in Hin.
    + apply elem_of_cons in Hin as [->|Hin]; [by left|]. right.
      apply elem_of_app in Hin as [Hin|Hin].
      { left. split; [done|]. right. destruct (requests_of opts); simpl in Hin.
        - by apply elem_of_nil in Hin.
        - apply list_elem_of_singleton in Hin. by subst. }
      apply elem_of_cons in Hin as [->|Hin]; [left; split; [done|by left]|].
      apply write_events_inv in Hin as [?|[-> | ->]]; eauto 10.
    + apply elem_of_cons in Hin as [->|Hin]; [by left|]. right. right. left.
      split; [done|].
      apply list_elem_of_fmap in Hin as (r & -> & Hr).
      exists r. split; [|done].
      apply elem_of_take in Hr as (i & Hi & _).
      by apply list_elem_of_lookup_2 in Hi.
    + apply elem_of_cons in Hin as [->|Hin]; [by left|]. right.
      apply elem_of_app in Hin as [Hin|Hin].
      { right. left. split; [done|].
        apply list_elem_of_fmap in Hin as (r & -> & Hr). by exists r. }
      apply write_events_inv in Hin as [?|[-> | ->]]; eauto 10.
Qed.

End run_shape.

(** ** What the options decide, seen in the events of a run *)

Section run_properties.
Context {C : Collaborators}.
Implicit Types (g : globals) (l : locals) (opts : list (Z * string))
  (args : list string) (x : event).

Lemma given_last_arg p opts :
  given p opts = true ↔ is_Some (last_arg p opts).
Proof.
  unfold given. induction opts as [|o opts IH]; simpl.
  - split; [done|]. by intros [? ?].
  - rewrite orb_true_iff, IH.
    destruct (last_arg p opts) as [a|], (p o.1);
      (split; [intros [?|?]|intros ?]; by eauto).
Qed.

(** Splits a membership in the log of a run into the places an event can
    come from, and drops those of another constructor. *)
Ltac run_cases Hin args :=
  apply run_events in Hin
    as [Hin|(g & l & Hcl
             & [(pfile & Hproject & [Hin|[Hin Hq]])
               |(Hproject
                 & [Hin|[Hin|[[Ht [Hin|[Hin Hq]]]
                   |[(Ht & r & Hr & Hin)|[[Hin Hs]|[[image' Hin]|Hin]]]]]])])];
  try discriminate Hin;
  try (destruct args; discriminate Hin);
  try match goal with
      | r : input |- _ => destruct r as [[] ?]; discriminate Hin
      end.

Lemma version_string_parses major minor :
  4 ≤ major ≤ 14 → -9 ≤ minor ≤ 99 →
  parse_version (version_text (version_string major minor))
  = Returns (Some (major, minor)).
Proof.
  intros Hmajor Hminor.
  set (check := λ M N,
    match parse_version (version_text (version_string M N)) with
    | Returns (Some (a, b)) => (a =? M) && (b =? N)
    | _ => false
    end).
  assert (Hall : forallb (λ M, forallb (check M) (seqZ (-9) 109)) (seqZ 4 11)
                 = true) by (vm_compute; reflexivity).
  rewrite forallb_forall in Hall.
  specialize (Hall major). rewrite forallb_forall in Hall.
  specialize (Hall ltac:(apply list_elem_of_In, elem_of_seqZ; lia) minor
                   ltac:(apply list_elem_of_In, elem_of_seqZ; lia)).
  unfold check in Hall.
  destruct (parse_version _) as [|[[a b]|]]; try done.
  apply andb_true_iff in Hall as [->%Z.eqb_eq ->%Z.eqb_eq]. done.
Qed.

Lemma version_only_command_line s rest major minor :
  parse_version (version_text s) = Returns (Some (major, minor)) →
  4 ≤ major ≤ 14 →
  read_options ((LOPT_AIN_VERSION, s) :: rest) globals0
  = option_loop rest (Locals None None major minor false 0)
      (Globals (replicate 256 empty_slot) 0 "UTF-8" "CP932" false
               [EInitializeInstructions]).
Proof.
  intros Hparse Hrange. rewrite read_options_unfold.
  cbn [option_loop]. unfold bind. rewrite handle_option_version, Hparse.
  assert ((major <? 4) || (major >? 14) = false) as ->; [|done].
  apply orb_false_iff. lia.
Qed.

(** X2.  The version given to [ain_new] or to the project builder is the one
    of the last version option, 4.0 when there is none; its major number
    is within 4..14 and its minor number within -9..99.  The minor
    number is never checked: a version option that parses with a major
    number in 4..14 is accepted whatever its minor number and handed to
    [ain_new], or to the project builder, as it is; and every minor
    number from -9 to 99 has a version string that parses to it. *)
Theorem version_handed_on :
  (∀ opts args major minor,
     (EAinNew major minor ∈ log (command_ain_edit opts args globals0).1
      ∨ ∃ project,
          EPjeBuild project major minor
          ∈ log (command_ain_edit opts args globals0).1) →
     4 ≤ major ≤ 14 ∧ -9 ≤ minor ≤ 99
     ∧ match last_arg is_version opts with
       | Some s =>
           parse_version (version_text s) = Returns (Some (major, minor))
       | None => major = 4 ∧ minor = 0
       end)
  ∧ (∀ s major minor,
       parse_version (version_text s) = Returns (Some (major, minor)) →
       4 ≤ major ≤ 14 →
       EAinNew major minor
       ∈ log (command_ain_edit [(LOPT_AIN_VERSION, s)] [] globals0).1
       ∧ ∀ project,
           EPjeBuild project major minor
           ∈ log (command_ain_edit
                    [(LOPT_AIN_VERSION, s); (LOPT_PROJECT, project)]
                    [] globals0).1)
  ∧ (∀ major minor,
       4 ≤ major ≤ 14 → -9 ≤ minor ≤ 99 →
       parse_version (version_text (version_string major minor))
       = Returns (Some (major, minor))).
Proof.
  split; [|split; [|exact version_string_parses]].
  - intros opts args major minor.
    assert (Hl : ∀ g l, command_line opts args globals0 = (g, Done l) →
      4 ≤ major_version l ≤ 14 ∧ -9 ≤ minor_version l ≤ 99
      ∧ match last_arg is_version opts with
        | Some s => parse_version (version_text s)
                    = Returns (Some (major_version l, minor_version l))
        | None => major_version l = 4 ∧ minor_version l = 0
        end).
    { intros g l Hcl.
      destruct (command_line_settings _ _ _ _ Hcl) as (_ & _ & _ & _ & _ & _ & Hv).
      destruct (last_arg is_version opts) as [s|].
      - destruct Hv as [Hparse Hmajor].
        destruct (parse_version_range _ _ _ Hparse) as [_ Hminor]. done.
      - destruct Hv as [-> ->]. lia. }
    intros [Hin|[p Hin]]; run_cases Hin args.
    + destruct args; [|discriminate Hin]. injection Hin as -> ->. eauto.
    + injection Hin as _ -> ->. eauto.
  - intros s major minor Hparse Hrange. split; [|intros project].
    + assert (Hcl : command_line [(LOPT_AIN_VERSION, s)] [] globals0
        = (Globals (replicate 256 empty_slot) 0 "UTF-8" "CP932" false
                   [EInitializeInstructions],
           Done (Locals None None major minor false 0))).
      { rewrite command_line_unfold,
          (version_only_command_line s [] major minor Hparse Hrange).
        reflexivity. }
      destruct (run_log [(LOPT_AIN_VERSION, s)] [])
        as [(g & e & Hfail & _)|(g & l & Hcl' & Hrun)]; [congruence|].
      rewrite Hcl in Hcl'. injection Hcl' as <- <-.
      cbn [project_file] in Hrun. destruct Hrun as (tail & -> & _).
      apply (list_elem_of_lookup_2 _ 1). reflexivity.
    + assert (Hcl : command_line
                      [(LOPT_AIN_VERSION, s); (LOPT_PROJECT, project)]
                      [] globals0
        = (Globals (replicate 256 empty_slot) 0 "UTF-8" "CP932" false
                   [EInitializeInstructions],
           Done (Locals (Some project) None major minor false 0))).
      { rewrite command_line_unfold,
          (version_only_command_line s _ major minor Hparse Hrange).
        reflexivity. }
      destruct (run_log [(LOPT_AIN_VERSION, s); (LOPT_PROJECT, project)] [])
        as [(g & e & Hfail & _)|(g & l & Hcl' & Hrun)]; [congruence|].
      rewrite Hcl in Hcl'. injection Hcl' as <- <-.
      cbn [project_file] in Hrun. rewrite Hrun.
      apply (list_elem_of_lookup_2 _ 1). reflexivity.
Qed.

(** X3.  The project builder is given the file of the last project option. *)
Theorem project_builder_gets_last_file opts args project major minor :
  EPjeBuild project major minor ∈ log (command_ain_edit opts args globals0).1 →
  last_arg is_project opts = Some project.
Proof.
  intros Hin. run_cases Hin args. injection Hin as -> _ _.
  destruct (command_line_settings _ _ _ _ Hcl) as (<- & _). done.
Qed.

(** X4.  Whatever is written goes to the argument of the last -o/--output
    option, and to "out.ain" when there is none. *)
Theorem output_goes_to_last_o opts args path image :
  EAinWrite path image ∈ log (command_ain_edit opts args globals0).1 →
  path = default "out.ain" (last_arg is_output opts).
Proof.
  intros Hin. run_cases Hin args. injection Hin as -> _.
  destruct (command_line_settings _ _ _ _ Hcl) as (_ & <- & _). done.
Qed.

(** X5.  Every call of the assembler is for a queued code request, and gets
    the raw flag if --raw occurs anywhere on the command line, before or
    after that request, and no flag otherwise. *)
Theorem raw_applies_to_all_code opts args file asm_flags :
  EAssemble file asm_flags ∈ log (command_ain_edit opts args globals0).1 →
  asm_flags = (if given is_raw opts then ASM_RAW else 0)
  ∧ Input IN_CODE file ∈ requests_of opts.
Proof.
  intros Hin. run_cases Hin args. destruct r as [[] f]; try discriminate Hin.
  injection Hin as -> ->.
  destruct (command_line_settings _ _ _ _ Hcl) as (_ & _ & _ & <- & _). done.
Qed.

(** X6.  A transcoding is always from CP932 to the argument of the last
    --transcode option. *)
Theorem transcode_target_is_last opts args from to :
  ETranscode from to ∈ log (command_ain_edit opts args globals0).1 →
  from = "CP932" ∧ last_arg is_transcode opts = Some to.
Proof.
  intros Hin. run_cases Hin args. injection Hin as -> ->. split; [done|].
  destruct (command_line_settings _ _ _ _ Hcl)
    as (_ & _ & Hgiven & _ & _ & -> & _).
  rewrite Ht in Hgiven. symmetry in Hgiven.
  apply given_last_arg in Hgiven as [a ->]. done.
Qed.

(** X7.  A warning is only ever given for queued input files that the run
    ignores: in project mode, or else in transcode mode.  A run that
    applies its inputs, or has none, gives no warning. *)
Theorem warnings_only_on_mode_conflict opts args msg :
  EWarning msg ∈ log (command_ain_edit opts args globals0).1 →
  requests_of opts ≠ []
  ∧ ((msg = project_warning ∧ is_Some (last_arg is_project opts))
     ∨ (msg = transcode_warning
        ∧ given is_transcode opts = true
        ∧ last_arg is_project opts = None)).
Proof.
  intros Hin. run_cases Hin args; injection Hin as ->; (split; [done|]);
    destruct (command_line_settings _ _ _ _ Hcl) as (<- & _ & <- & _).
  - left. by rewrite Hproject.
  - right. by rewrite Hproject.
Qed.

End run_properties.

(** ** Rejected command lines, the order of steps, and how a run ends *)

Section run_order.
Context {C : Collaborators}.
Implicit Types (g : globals) (l : locals) (opts : list (Z * string))
  (args : list string) (x : event).

(** X8.  More than one positional argument ends the run with the usage error
    once the options have been read, before anything else is done, also
    when a project file was given. *)
Theorem too_many_arguments opts args g l :
  read_options opts globals0 = (g, Done l) →
  (1 < length args)%nat →
  command_ain_edit opts args globals0
  = (g, Fatal (UsageError "Too many arguments."))
  ∧ log g = [EInitializeInstructions].
Proof.
  intros Hread Hargs. unfold command_ain_edit, bind.
  rewrite command_line_unfold, Hread. case_decide; [|lia].
  split; [done|]. by apply read_options_spec in Hread as [? _].
Qed.

Lemma handle_option_fatal c a l g g' e :
  wf g → is_version c = false →
  handle_option c a l g = (g', Fatal e) →
  e = AliceError "Too many inputs" ∧ nr_inputs g >= 256.
Proof.
  intros [Hlen Hnr].
  unfold handle_option, is_version, is_case, chr, LOPT_PROJECT, LOPT_CODE,
    LOPT_JAF, LOPT_JSON, LOPT_TEXT, LOPT_TRANSCODE, LOPT_OUTPUT, LOPT_RAW,
    LOPT_AIN_VERSION, LOPT_SILENT.
  cbn [nat_of_ascii].
  repeat match goal with
    | |- context [Z.eqb c ?k] =>
        destruct (Z.eqb_spec c k) as [->|?]; cbn [orb]
    end; try done.
  all: unfold bind, push_input, ALICE_ERROR, abort, ret;
    repeat case_decide; intros _ [= <- <-]; try done; lia.
Qed.

Lemma requests_of_cons c a opts :
  requests_of ((c, a) :: opts) = option_list (request_of (c, a)) ++ requests_of opts.
Proof. unfold requests_of. simpl. by destruct (request_of (c, a)). Qed.

Lemma option_loop_overflow opts l g :
  wf g → given is_version opts = false →
  nr_inputs g + Z.of_nat (length (requests_of opts)) > 256 →
  ∃ g', option_loop opts l g = (g', Fatal (AliceError "Too many inputs"))
        ∧ queue g' = take 256 (queue g ++ requests_of opts).
Proof.
  induction opts as [|[c a] opts IH] in l, g |- *; intros Hwf Hversion Hmany.
  - destruct Hwf as [_ ?]. simpl in Hmany. lia.
  - unfold given in Hversion. cbn [existsb fst] in Hversion.
    apply orb_false_iff in Hversion as [Hc Hversion].
    pose proof (queue_length g Hwf) as Hlen.
    cbn [option_loop]. unfold bind.
    destruct (handle_option_step c a l g Hwf)
      as (g1 & r1 & Hstep & _ & Hwf1 & Hr1).
    rewrite Hstep, requests_of_cons. destruct r1 as [l1|e].
    + destruct Hr1 as (Hq1 & _).
      pose proof (queue_length g1 Hwf1) as Hlen1.
      rewrite Hq1, length_app in Hlen1.
      rewrite requests_of_cons, length_app in Hmany.
      pose proof Hwf as [_ ?]. pose proof Hwf1 as [_ ?].
      destruct (IH l1 g1 Hwf1 Hversion) as (g' & -> & Hq'); [lia|].
      exists g'. split; [done|]. by rewrite Hq', Hq1, <- app_assoc.
    + subst g1.
      destruct (handle_option_fatal _ _ _ _ _ _ Hwf Hc Hstep) as [-> Hfull].
      exists g. split; [done|]. destruct Hwf as [? ?].
      by rewrite take_app_le, take_ge by lia.
Qed.

(** X9.  With more than 256 input files on the command line (and no version
    option, which could fail first) the run ends with "Too many inputs"
    while the options are read: the first 256 requests are queued and
    nothing else has happened. *)
Theorem too_many_inputs_run opts args :
  given is_version opts = false →
  (256 < length (requests_of opts))%nat →
  ∃ g, command_ain_edit opts args globals0
       = (g, Fatal (AliceError "Too many inputs"))
       ∧ log g = [EInitializeInstructions]
       ∧ queue g = take 256 (requests_of opts).
Proof.
  intros Hversion Hmany.
  destruct (option_loop_overflow opts locals0
    (Globals (replicate 256 empty_slot) 0 "UTF-8" "CP932" false
             [EInitializeInstructions])) as (g & Hloop & Hq);
    [split; [reflexivity|simpl; lia]|done|simpl; lia|].
  exists g. rewrite <- read_options_unfold in Hloop.
  split; [|split; [|done]].
  - unfold command_ain_edit, bind. by rewrite command_line_unfold, Hloop.
  - by apply read_options_spec in Hloop as [? _].
Qed.

Lemma decompose_after (P : event → bool) (A B pre post : list event) x :
  A ++ B = pre ++ x :: post →
  Forall (λ e, P e = false) A → P x = true →
  ∃ pre', pre = A ++ pre'.
Proof.
  induction A as [|a A IH] in pre |- *; intros Heq HA Hx; [by exists pre|].
  apply Forall_cons in HA as [Ha HA].
  destruct pre as [|y pre]; simpl in Heq; injection Heq as -> Heq.
  - congruence.
  - destruct (IH pre Heq HA Hx) as [pre' ->]. by exists pre'.
Qed.

(** X10.  In every run, whatever works on the image (a transcoding, an edit,
    the write) comes after the member-function fix-up, which comes right
    after the call that created or opened the image. *)
Theorem fixup_precedes_work opts args pre x post :
  log (command_ain_edit opts args globals0).1 = pre ++ x :: post →
  works_on_image x = true →
  ∃ e between,
    pre = [EInitializeInstructions; e; EInitMemberFunctions] ++ between
    ∧ is_image_event e = true.
Proof.
  intros Heq Hx.
  assert (Hin : x ∈ log (command_ain_edit opts args globals0).1).
  { rewrite Heq. apply elem_of_app. right. apply elem_of_cons. by left. }
  assert (Hnone : ∀ L : list event,
    log (command_ain_edit opts args globals0).1 = L →
    Forall (λ e, works_on_image e = false) L → False).
  { intros L HL Hall. rewrite HL in Hin.
    rewrite Forall_forall in Hall. specialize (Hall x Hin). congruence. }
  destruct (run_log opts args) as [(g & e & _ & Hrun & Hlog)|(g & l & Hcl & Hrun)].
  { exfalso. apply (Hnone [EInitializeInstructions]).
    - by rewrite Hrun.
    - by repeat constructor. }
  destruct (project_file l) as [project|].
  { exfalso. eapply Hnone; [exact Hrun|].
    destruct (requests_of opts); by repeat constructor. }
  destruct Hrun as (tail & Hrun & Htail).
  assert (Himage : is_image_event (image_event l args) = true
                   ∧ works_on_image (image_event l args) = false)
    by (by destruct args).
  destruct Himage as [Himage Hquiet].
  assert (Hfix : ∀ rest,
    tail = [EInitMemberFunctions] ++ rest →
    ∃ e between,
      pre = [EInitializeInstructions; e; EInitMemberFunctions] ++ between
      ∧ is_image_event e = true).
  { intros rest ->. rewrite Heq in Hrun. symmetry in Hrun.
    change ([EInitializeInstructions; image_event l args]
            ++ [EInitMemberFunctions] ++ rest)
      with ([EInitializeInstructions; image_event l args; EInitMemberFunctions]
            ++ rest) in Hrun.
    destruct (decompose_after works_on_image _ _ _ _ _ Hrun) as [pre' ->];
      [by repeat constructor|done|].
    by exists (image_event l args), pre'. }
  destruct Htail as [->|[(_ & i & ->)|[(_ & k & ->)|(_ & i & ->)]]];
    [|by eapply Hfix..].
  exfalso. eapply Hnone; [exact Hrun|]. by repeat constructor.
Qed.

Lemma handle_option_errors c a l g g' e :
  wf g → handle_option c a l g = (g', Fatal e) →
  e = AliceError "Too many inputs"
  ∨ e = AliceError "Invalid AIN version (parse error)"
  ∨ e = AliceError "Invalid AIN version (4-14 supported)".
Proof.
  intros Hwf. destruct (is_version c) eqn:Hc.
  - apply Z.eqb_eq in Hc as ->.
    change (handle_option 264 a l g)
      with (handle_option LOPT_AIN_VERSION a l g).
    rewrite handle_option_version.
    destruct (parse_version_defined (version_text a)) as [res ->].
    destruct res as [[major minor]|]; [|intros [= <- <-]; auto].
    destruct ((major <? 4) || (major >? 14)); intros [= <- <-]; auto.
  - intros Hstep.
    destruct (handle_option_fatal _ _ _ _ _ _ Hwf Hc Hstep) as [-> _]. auto.
Qed.

Lemma option_loop_errors opts l g g' e :
  wf g → option_loop opts l g = (g', Fatal e) →
  e = AliceError "Too many inputs"
  ∨ e = AliceError "Invalid AIN version (parse error)"
  ∨ e = AliceError "Invalid AIN version (4-14 supported)".
Proof.
  induction opts as [|[c a] opts IH] in l, g |- *; intros Hwf; [done|].
  cbn [option_loop]. unfold bind.
  destruct (handle_option_step c a l g Hwf) as (g1 & r1 & Hstep & _ & Hwf1 & _).
  rewrite Hstep. destruct r1 as [l1|e1].
  - by apply IH.
  - intros [= <- <-]. exact (handle_option_errors _ _ _ _ _ _ Hwf Hstep).
Qed.

(** X13.  How a run can end: with 0; with one of the four diagnostics of
    [command_ain_edit] or the usage error; or inside a collaborator.
    It never reads outside the input array and never leaves
    [parse_version] undefined. *)
Theorem run_outcomes opts args :
  match (command_ain_edit opts args globals0).2 with
  | Done status => status = 0
  | Fatal (AliceError msg) =>
      msg = "Too many inputs"
      ∨ msg = "Invalid AIN version (parse error)"
      ∨ msg = "Invalid AIN version (4-14 supported)"
      ∨ ∃ err, msg = "Failed to open ain file: " +:+ ain_strerror err
  | Fatal (UsageError msg) => msg = "Too many arguments."
  | Fatal CollaboratorExit => True
  | Fatal UndefinedBehaviour => False
  end.
Proof.
  destruct (command_line opts args globals0) as [g [l|e]] eqn:Hcl.
  - destruct (command_line_spec _ _ _ _ Hcl) as (_ & Hwf & _).
    destruct (project_file l) as [project|] eqn:Hproject.
    { destruct (command_ain_edit_project _ _ _ _ _ Hcl Hproject) as [-> _].
      cbn [snd]. by destruct (pje_build _ _ _). }
    rewrite (command_ain_edit_unfold _ _ _ _ Hcl), Hproject.
    assert (Hwrite : ∀ output image,
      match write_result output image with
      | Done status => status = 0
      | Fatal CollaboratorExit => True
      | Fatal _ => False
      end).
    { intros. unfold write_result. by destruct (ain_write _ _). }
    assert (Hedit : ∀ image e,
      match (edit_and_write l image (add_log g [e])).2 with
      | Done status => status = 0
      | Fatal CollaboratorExit => True
      | Fatal _ => False
      end).
    { intros image e. destruct (transcode l) eqn:Ht.
      - rewrite edit_and_write_transcode by done. apply Hwrite.
      - rewrite edit_and_write_edits by done.
        destruct (run_edits _ _ _) as [k [image'|]]; [apply Hwrite|done]. }
    destruct args as [|path rest].
    + rewrite open_container_new. specialize (Hedit
        (ain_new (major_version l) (minor_version l))
        (EAinNew (major_version l) (minor_version l))).
      by destruct (edit_and_write _ _ _).2 as [|[]].
    + rewrite open_container_path. destruct (ain_open path) as [err|image].
      * cbn [snd]. do 3 right. by exists err.
      * specialize (Hedit image (EAinOpen path)).
        by destruct (edit_and_write _ _ _).2 as [|[]].
  - unfold command_ain_edit, bind. rewrite Hcl. cbn [snd].
    rewrite command_line_unfold in Hcl.
    destruct (read_options opts globals0) as [g1 [l1|e1]] eqn:Hread.
    + case_decide; [|done]. by injection Hcl as _ <-.
    + injection Hcl as _ <-. rewrite read_options_unfold in Hread.
      apply option_loop_errors in Hread as [-> | [-> | ->]]; auto.
      split; [reflexivity|simpl; lia].
Qed.

End run_order.

(** ** These properties on concrete command lines *)

Lemma version_handed_on_witness :
  (4 ≤ 12 ≤ 14 ∧ -9 ≤ -3 ≤ 99
   ∧ match last_arg is_version
             [(LOPT_AIN_VERSION, "6"); (LOPT_AIN_VERSION, "12.-3")] with
     | Some s => parse_version (version_text s) = Returns (Some (12, -3))
     | None => 12 = 4 ∧ -3 = 0
     end)
  ∧ EAinNew 14 (-9)
    ∈ log (command_ain_edit (C := Simple.collaborators)
             [(LOPT_AIN_VERSION, "14.-9")] [] globals0).1
  ∧ EPjeBuild "game.pje" 4 99
    ∈ log (command_ain_edit (C := Simple.collaborators)
             [(LOPT_AIN_VERSION, "4.99"); (LOPT_PROJECT, "game.pje")]
             [] globals0).1
  ∧ parse_version (version_text (version_string 4 (-9)))
    = Returns (Some (4, -9)).
Proof.
  destruct (version_handed_on (C := Simple.collaborators)) as (H1 & H2 & H3).
  split; [|split; [|split]].
  - apply (H1 [(LOPT_AIN_VERSION, "6"); (LOPT_AIN_VERSION, "12.-3")] []).
    left. apply (list_elem_of_lookup_2 _ 1). vm_compute. reflexivity.
  - apply (H2 "14.-9" 14 (-9)); [reflexivity|lia].
  - apply (H2 "4.99" 4 99); [reflexivity|lia].
  - apply H3; lia.
Defined.

Lemma project_builder_gets_last_file_witness :
  last_arg is_project [(chr "p", "old.pje"); (LOPT_PROJECT, "game.pje")]
  = Some "game.pje".
Proof.
  apply (project_builder_gets_last_file (C := Simple.collaborators)
           [(chr "p", "old.pje"); (LOPT_PROJECT, "game.pje")] []
           "game.pje" 4 0).
  apply (list_elem_of_lookup_2 _ 1). vm_compute. reflexivity.
Defined.

Lemma output_goes_to_last_o_witness :
  "b.ain"
  = default "out.ain"
      (last_arg is_output [(chr "o", "a.ain"); (LOPT_OUTPUT, "b.ain")]).
Proof.
  apply (output_goes_to_last_o (C := Simple.collaborators)
           [(chr "o", "a.ain"); (LOPT_OUTPUT, "b.ain")] []
           "b.ain" (Simple.Image (4, 0) ["init"])).
  apply (list_elem_of_lookup_2 _ 4). vm_compute. reflexivity.
Defined.

Lemma raw_applies_to_all_code_witness :
  1 = (if given is_raw [(chr "c", "main.jam"); (LOPT_RAW, "")]
       then ASM_RAW (Collaborators := Simple.collaborators) else 0)
  ∧ Input IN_CODE "main.jam"
    ∈ requests_of [(chr "c", "main.jam"); (LOPT_RAW, "")].
Proof.
  apply (raw_applies_to_all_code (C := Simple.collaborators)
           [(chr "c", "main.jam"); (LOPT_RAW, "")] []).
  apply (list_elem_of_lookup_2 _ 3). vm_compute. reflexivity.
Defined.

Lemma transcode_target_is_last_witness :
  "CP932" = "CP932"
  ∧ last_arg is_transcode
      [(LOPT_TRANSCODE, "EUC-JP"); (LOPT_TRANSCODE, "UTF-8")]
    = Some "UTF-8".
Proof.
  apply (transcode_target_is_last (C := Simple.collaborators)
           [(LOPT_TRANSCODE, "EUC-JP"); (LOPT_TRANSCODE, "UTF-8")]
           ["game.ain"]).
  apply (list_elem_of_lookup_2 _ 3). vm_compute. reflexivity.
Defined.

Lemma warnings_only_on_mode_conflict_witness :
  requests_of [(LOPT_TRANSCODE, "UTF-8"); (chr "t", "text.txt")] ≠ []
  ∧ ((transcode_warning = project_warning
      ∧ is_Some (last_arg is_project
                   [(LOPT_TRANSCODE, "UTF-8"); (chr "t", "text.txt")]))
     ∨ (transcode_warning = transcode_warning
        ∧ given is_transcode
            [(LOPT_TRANSCODE, "UTF-8"); (chr "t", "text.txt")] = true
        ∧ last_arg is_project
            [(LOPT_TRANSCODE, "UTF-8"); (chr "t", "text.txt")] = None)).
Proof.
  apply (warnings_only_on_mode_conflict (C := Simple.collaborators)
           [(LOPT_TRANSCODE, "UTF-8"); (chr "t", "text.txt")] ["game.ain"]).
  apply (list_elem_of_lookup_2 _ 3). vm_compute. reflexivity.
Defined.

Lemma too_many_arguments_witness :
  (command_ain_edit (C := Simple.collaborators)
     [(LOPT_PROJECT, "game.pje")] ["a.ain"; "b.ain"] globals0).2
  = Fatal (UsageError "Too many arguments.").
Proof.
  edestruct (too_many_arguments (C := Simple.collaborators)
               [(LOPT_PROJECT, "game.pje")] ["a.ain"; "b.ain"])
    as [Hrun _]; [reflexivity|simpl; lia|].
  by rewrite Hrun.
Defined.

Lemma too_many_inputs_run_witness :
  (command_ain_edit (C := Simple.collaborators)
     (replicate 257 (LOPT_CODE, "a.jam")) [] globals0).2
  = Fatal (AliceError "Too many inputs").
Proof.
  destruct (too_many_inputs_run (C := Simple.collaborators)
              (replicate 257 (LOPT_CODE, "a.jam")) [])
    as (g & Hrun & _).
  - vm_compute. reflexivity.
  - vm_compute. lia.
  - by rewrite Hrun.
Defined.

Lemma fixup_precedes_work_witness :
  ∃ e between,
    [EInitializeInstructions; EAinOpen "game.ain"; EInitMemberFunctions;
     EReadText (C := Simple.collaborators) "text.txt"]
    = [EInitializeInstructions; e; EInitMemberFunctions] ++ between
    ∧ is_image_event e = true.
Proof.
  apply (fixup_precedes_work (C := Simple.collaborators)
           [(chr "t", "text.txt"); (chr "c", "main.jam")] ["game.ain"]
           _ (EAssemble "main.jam" 0)
           [ENotice "Writing AIN file...";
            EAinWrite (C := Simple.collaborators) "out.ain"
              (Simple.Image (12, 0)
                 ["open game.ain"; "init"; "text text.txt"; "jam main.jam"]);
            EAinFree]).
  - vm_compute. reflexivity.
  - reflexivity.
Defined.
